(** * subfs: a Subsonic music library served as a read-only FUSE filesystem

    A shallow embedding of the cache / streaming code ([SubFile.ReadAll]),
    the tree code ([SubDir.ReadDir] and the read-only handlers) and the index
    refresh loop ([cacheIndexes]), with the properties the specification
    states about them.

    Conventions.
    - Go's [int64] is a [Z] with the wrap-around written out ([Int64.wrap]).
    - Go strings are byte strings: [string] of the Standard Library.
    - A [[]byte] is [option (list Byte.byte)]: [None] is the nil slice.
    - Go maps are stdpp [gmap]s; a map held in a struct field is shared by
      every copy of the struct, so a method that writes it returns the
      updated node.
    - The remote service, the local disk and the FUSE transport are outside
      the program: each call into them takes its outcome from an
      environment record, and the calls made are recorded as effects. *)

From Stdlib Require Import ZArith String Ascii List Lia DecimalString.
From Stdlib Require Import DecimalPos DecimalZ.
From stdpp Require Import gmap strings list fin_maps.

#[local] Set Warnings "-register-all".
#[local] Open Scope Z_scope.

(** ** Machine integers *)

Module Int64.

Definition min_int : Z := - 2 ^ 63.
Definition max_int : Z := 2 ^ 63 - 1.

(** Two's complement wrap-around of a mathematical integer. *)
Definition wrap (z : Z) : Z := (z + 2 ^ 63) mod 2 ^ 64 - 2 ^ 63.

Definition in_range (z : Z) : Prop := min_int <= z <= max_int.

Definition add (x y : Z) : Z := wrap (x + y).
Definition mul (x y : Z) : Z := wrap (x * y).
(** Go's [/] truncates toward zero. *)
Definition div (x y : Z) : Z := wrap (Z.quot x y).

End Int64.

(** ** The string helpers of Go's [strings] and [fmt] that the code calls *)

Module GoStrings.

#[local] Open Scope string_scope.

(** [strings.HasPrefix s p]. *)
Definition HasPrefix (s p : string) : bool := String.prefix p s.

(** [strings.Contains s substr]. *)
Fixpoint Contains (s substr : string) : bool :=
  HasPrefix s substr ||
  match s with
  | EmptyString => false
  | String _ s' => Contains s' substr
  end.

(** [strings.HasSuffix s suffix]. *)
Definition HasSuffix (s suffix : string) : bool :=
  (String.length suffix <=? String.length s)%nat &&
  String.eqb
    (String.substring (String.length s - String.length suffix)
                      (String.length suffix) s)
    suffix.

(** [strings.TrimSuffix s suffix]. *)
Definition TrimSuffix (s suffix : string) : string :=
  if HasSuffix s suffix
  then String.substring 0 (String.length s - String.length suffix) s
  else s.

(** [strings.Replace s old new (-1)] for a non-empty [old]: every
    non-overlapping occurrence, leftmost first.  [skip] counts the bytes
    of a matched occurrence that are still to be dropped.  (The program
    only passes the one-byte patterns of [badChars].) *)
Fixpoint replace_from (skip : nat) (old new s : string) : string :=
  match s with
  | EmptyString => EmptyString
  | String c s' =>
      match skip with
      | S k => replace_from k old new s'
      | O =>
          if HasPrefix s old
          then new +:+ replace_from (String.length old - 1) old new s'
          else String c (replace_from O old new s')
      end
  end.

Definition Replace (s old new : string) : string := replace_from O old new s.

(** [%d] / [%v] of an [int64]. *)
Definition FormatInt (z : Z) : string := NilZero.string_of_int (Z.to_int z).

(** [strings.Split s "."] and [strings.Join pieces "."], used by
    [stripExtension]. *)
Fixpoint split_dot (cur : string) (s : string) : list string :=
  match s with
  | EmptyString => [cur]
  | String c s' =>
      if Ascii.eqb c "."%char
      then cur :: split_dot EmptyString s'
      else split_dot (cur +:+ String c EmptyString) s'
  end.

Fixpoint join_dot (pieces : list string) : string :=
  match pieces with
  | [] => EmptyString
  | [p] => p
  | p :: rest => p +:+ "." +:+ join_dot rest
  end.

End GoStrings.

(** [stripExtension]: the template helper that drops the last dot-separated
    piece of a path or file name. *)
Definition stripExtension (filename : string) : string :=
  let pieces := GoStrings.split_dot EmptyString filename in
  GoStrings.join_dot (removelast pieces).

(** ** The FUSE vocabulary the handlers answer with *)

Module Fuse.

(** The error numbers the program returns ([syscall.EROFS], [fuse.ENOENT],
    [fuse.EINTR]). *)
Inductive Errno := EROFS | ENOENT | EINTR.

(** Their Linux values. *)
Definition errno_value (e : Errno) : Z :=
  match e with
  | EROFS => 30
  | ENOENT => 2
  | EINTR => 4
  end.

Inductive DirentType := DT_Dir | DT_File.

Record Dirent := { Name : string; Type_ : DirentType }.

#[global] Instance Errno_eq_dec : EqDecision Errno.
Proof. solve_decision. Defined.
#[global] Instance DirentType_eq_dec : EqDecision DirentType.
Proof. solve_decision. Defined.
#[global] Instance Dirent_eq_dec : EqDecision Dirent.
Proof. solve_decision. Defined.

End Fuse.

(** ** File nodes *)

Module SubFile.

(** Modelled from the spec: the [SubFile] declaration that goes with the
    tree code is not among the sources (the one next to [ReadAll] has [ID],
    [Created], [FileName] and [Size] only).  The flags [IsVideo], [IsArt]
    and [Lossless] are those the tree code writes, the spec's FileEntry:
    identity, creation timestamp, derived filename, size in bytes, flags.
    [ReadAll] reads [ID], [FileName] and [Size].  [Created] is a
    [time.Time], kept as a number. *)
Record t := {
  ID : Z;
  Created : Z;
  FileName : string;
  Size : Z;
  IsVideo : bool;
  IsArt : bool;
  Lossless : bool;
}.

#[global] Instance eq_dec : EqDecision t.
Proof. solve_decision. Defined.

End SubFile.

(** ** The local cache and [SubFile.ReadAll] *)

Module Cache.

Import SubFile.

(** A value of [fileCache]: the [os.File] of the temporary file, known by
    its name.  [cr_entry] is a ghost field, absent from the source map: the
    file node whose read registered the record, so that "the declared size
    of a registered entry" can be stated. *)
Record CacheRecord := {
  cr_file : string;
  cr_entry : SubFile.t;
}.

(** The two globals [fileCache] and [cacheTotal]. *)
Record State := {
  fileCache : gmap string CacheRecord;
  cacheTotal : Z;
}.

(** [main]: [fileCache = map[string]os.File{}], [cacheTotal = 0]. *)
Definition init : State := {| fileCache := ∅; cacheTotal := 0 |}.

(** An opened remote stream: what [ioutil.ReadAll] and [Close] answer. *)
Record Stream := {
  st_ReadAll : option (list Byte.byte);   (* None: the read fails *)
  st_Close : bool;                   (* true: closes without error *)
}.

(** What the world answers during one read. *)
Record Env := {
  (* ioutil.ReadFile: the buffer and the error (its message), if any *)
  env_ReadFile : string → option (list Byte.byte) * option string;
  (* subsonic.Stream: None when the stream cannot be opened *)
  env_Stream : Z → option Stream;
  (* ioutil.TempFile: the name of the new file, None on error *)
  env_TempFile : option string;
  (* tmpFile.Write: true when the bytes are written *)
  env_Write : string → list Byte.byte → bool;
}.

(** The calls made to the world, in order. *)
Inductive Effect :=
| EReadFile (path : string)
| ECloseFile (path : string)
| EStream (id : Z)
| EReadStream (id : Z)
| ECloseStream (id : Z)
| ETempFile
| EWrite (path : string).

#[global] Instance Effect_eq_dec : EqDecision Effect.
Proof. solve_decision. Defined.

(** A computation that may die of a run-time panic. *)
Inductive Run (A : Type) :=
| Done (a : A)
| Panic.
Arguments Done {A} a.
Arguments Panic {A}.

(** [len(buf)] of a possibly nil slice. *)
Definition len (buf : option (list Byte.byte)) : nat :=
  match buf with
  | None => O
  | Some l => length l
  end.

(** [*cacheSize*1024*1024]. *)
Definition budget (cacheSize : Z) : Z :=
  Int64.mul (Int64.mul cacheSize 1024) 1024.

(** [int64(threshold*1024*1024)] with [threshold := 50]. *)
Definition threshold : Z := 50 * 1024 * 1024.

(** The purge of a stale record: [delete(fileCache, s.FileName)] and
    [cacheTotal = atomic.AddInt64(&cacheTotal, -1 * s.Size)]. *)
Definition evict (st : State) (s : SubFile.t) : State :=
  {| fileCache := delete (FileName s) (fileCache st);
     cacheTotal := Int64.add (cacheTotal st) (Int64.mul (-1) (Size s)) |}.

(** What the cache check of the goroutine ends in. *)
Inductive Lookup :=
| Hit (buf : option (list Byte.byte))   (* [byteChan <- buf; return] *)
| Miss.                            (* go on to the stream *)

(** First part of the goroutine: "Check for file in cache".  With an empty
    buffer the condition goes on to [err.Error()], which dereferences a nil
    error when [ReadFile] reported none. *)
Definition checkCache (env : Env) (st : State) (s : SubFile.t)
  : Run (State * Lookup * list Effect) :=
  match fileCache st !! FileName s with
  | Some cFile =>
      let '(buf, err) := env_ReadFile env (cr_file cFile) in
      let eff := [EReadFile (cr_file cFile)] in
      if (len buf =? 0)%nat then
        match err with
        | None => Panic
        | Some msg =>
            if GoStrings.Contains msg "no such file or directory"
            then Done (evict st s, Miss, eff ++ [ECloseFile (cr_file cFile)])
            else Done (st, Hit buf, eff)
        end
      else Done (st, Hit buf, eff)
  | None => Done (st, Miss, [])
  end.

(** Second part: open the stream, read it in, close it.  [None] is the
    [byteChan <- nil] of each of the three failures. *)
Definition fetch (env : Env) (s : SubFile.t)
  : option (list Byte.byte) * list Effect :=
  match env_Stream env (ID s) with
  | None => (None, [EStream (ID s)])
  | Some stream =>
      match st_ReadAll stream with
      | None => (None, [EStream (ID s); EReadStream (ID s)])
      | Some file =>
          if st_Close stream
          then (Some file,
                [EStream (ID s); EReadStream (ID s); ECloseStream (ID s)])
          else (None,
                [EStream (ID s); EReadStream (ID s); ECloseStream (ID s)])
      end
  end.

(** The registration of a fresh temporary file:
    [fileCache[s.FileName] = *tmpFile] and
    [cacheTotal = atomic.AddInt64(&cacheTotal, s.Size)]. *)
Definition register (st : State) (s : SubFile.t) (tmpFile : string) : State :=
  {| fileCache :=
       <[FileName s := {| cr_file := tmpFile; cr_entry := s |}]> (fileCache st);
     cacheTotal := Int64.add (cacheTotal st) (Size s) |}.

(** Third part, after the bytes were handed over: the three checks, then
    the temporary file, the map and the total. *)
Definition tryCache (env : Env) (cacheSize : Z) (st : State) (s : SubFile.t)
    (file : list Byte.byte) : State * list Effect :=
  if budget cacheSize <? cacheTotal st then (st, [])
  else if budget cacheSize <? Int64.add (cacheTotal st) (Size s) then (st, [])
  else if threshold <? Size s then (st, [])
  else
    match env_TempFile env with
    | None => (st, [ETempFile])
    | Some tmpFile =>
        if env_Write env tmpFile file
        then (register st s tmpFile, [ETempFile; EWrite tmpFile])
        else (st, [ETempFile; EWrite tmpFile])
    end.

(** What a read leaves behind and hands to its caller:
    the globals, the two results of [ReadAll] and the calls made. *)
Record Result := {
  r_state : State;
  r_data : option (list Byte.byte);
  r_err : option Fuse.Errno;
  r_effects : list Effect;
}.

(** [SubFile.ReadAll].  The goroutine runs up to its send on the unbuffered
    [byteChan]; [intr] tells which case the [select] takes.  When it is the
    interrupt, nobody receives: the goroutine stays blocked in its send and
    never reaches the admission checks.  A panic in the goroutine ends the
    process whatever the requester does. *)
Definition ReadAll (env : Env) (cacheSize : Z) (st : State) (s : SubFile.t)
    (intr : bool) : Run Result :=
  match checkCache env st s with
  | Panic => Panic
  | Done (st1, Hit buf, eff) =>
      if intr
      then Done {| r_state := st1; r_data := None;
                   r_err := Some Fuse.EINTR; r_effects := eff |}
      else Done {| r_state := st1; r_data := buf;
                   r_err := None; r_effects := eff |}
  | Done (st1, Miss, eff) =>
      match fetch env s with
      | (None, eff') =>
          if intr
          then Done {| r_state := st1; r_data := None;
                       r_err := Some Fuse.EINTR; r_effects := eff ++ eff' |}
          else Done {| r_state := st1; r_data := None;
                       r_err := None; r_effects := eff ++ eff' |}
      | (Some file, eff') =>
          if intr
          then Done {| r_state := st1; r_data := None;
                       r_err := Some Fuse.EINTR; r_effects := eff ++ eff' |}
          else
            let '(st2, eff'') := tryCache env cacheSize st1 s file in
            Done {| r_state := st2; r_data := Some file;
                    r_err := None; r_effects := eff ++ eff' ++ eff'' |}
      end
  end.

(** One read request, as the filesystem receives it, with the world's
    answers for its duration. *)
Record Request := {
  rq_file : SubFile.t;
  rq_env : Env;
  rq_intr : bool;
}.

(** A sequence of reads served one at a time: the goroutine of a read has
    run to its end (admission checks, temporary file and registration
    included) before the next read arrives.  [ReadAll] itself returns as soon
    as the bytes are received, so this is one schedule among those the
    program has; [Sched.exec] below has the others. *)
Fixpoint run (cacheSize : Z) (reqs : list Request) (st : State) : Run State :=
  match reqs with
  | [] => Done st
  | rq :: rest =>
      match ReadAll (rq_env rq) cacheSize st (rq_file rq) (rq_intr rq) with
      | Panic => Panic
      | Done r => run cacheSize rest (r_state r)
      end
  end.

(** The sum of the declared sizes of the registered entries. *)
Definition registered_total (m : gmap string CacheRecord) : Z :=
  map_fold (λ _ r acc, Size (cr_entry r) + acc) 0 m.

(** *** Vocabulary of the properties *)

(** The number of times the remote stream was opened. *)
Definition is_stream_open (e : Effect) : bool :=
  match e with
  | EStream _ => true
  | _ => false
  end.

Definition streams_opened (eff : list Effect) : nat :=
  length (List.filter is_stream_open eff).

(** The number of calls that create or write a temporary file. *)
Definition is_temp_file (e : Effect) : bool :=
  match e with
  | ETempFile | EWrite _ => true
  | _ => false
  end.

Definition temp_files_touched (eff : list Effect) : nat :=
  length (List.filter is_temp_file eff).

(** Opening the stream, reading it or closing it fails. *)
Definition stream_fails (env : Env) (s : SubFile.t) : Prop :=
  match env_Stream env (ID s) with
  | None => True
  | Some stream => st_ReadAll stream = None ∨ st_Close stream = false
  end.

(** The backing file of a record is gone: [ReadFile] has no bytes and
    reports "no such file or directory". *)
Definition backing_absent (env : Env) (rec : CacheRecord) : Prop :=
  len (env_ReadFile env (cr_file rec)).1 = 0%nat
  ∧ ∃ msg, (env_ReadFile env (cr_file rec)).2 = Some msg
           ∧ GoStrings.Contains msg "no such file or directory" = true.

(** The backing file is there and holds no bytes. *)
Definition backing_empty (env : Env) (rec : CacheRecord) : Prop :=
  env_ReadFile env (cr_file rec) = (Some [], None).

(** No record was registered for a file above the ceiling. *)
Definition small_records (st : State) : Prop :=
  ∀ k rec, fileCache st !! k = Some rec → Size (cr_entry rec) <= threshold.

(** A file name comes with one declared size. *)
Definition size_by_name (sz : string → Z) (s : SubFile.t) : Prop :=
  Size s = sz (FileName s).

(** The total is the (wrapped) sum of the registered sizes, and every
    record has the size that goes with its name. *)
Definition total_inv (sz : string → Z) (st : State) : Prop :=
  cacheTotal st = Int64.wrap (registered_total (fileCache st))
  ∧ ∀ k rec, fileCache st !! k = Some rec → Size (cr_entry rec) = sz k.

End Cache.

(** ** The records of the remote client ([gosubsonic]) that the code reads *)

Module MusicFolder.
Record t := { ID : Z; Name : string }.
#[global] Instance eq_dec : EqDecision t.
Proof. solve_decision. Defined.
(** Keys of [artistsIndex]. *)
#[global] Instance countable : Countable t.
Proof.
  refine (inj_countable' (λ f, (ID f, Name f))
                         (λ p, {| ID := p.1; Name := p.2 |}) _).
  by intros [].
Defined.
End MusicFolder.

Module IndexArtist.
Record t := { ID : Z; Name : string }.
End IndexArtist.

Module Index.
Record t := { Artist : list IndexArtist.t }.
End Index.

Module Directory.
Record t := { ID : Z; Title : string; CoverArt : Z }.
End Directory.

Module Audio.
Record t := {
  ID : Z;
  Album : string;
  Artist : string;
  Title : string;
  Track : Z;
  Suffix : string;
  TranscodedSuffix : string;
  Size : Z;
  DurationRaw : Z;
  Path : string;
  CoverArt : Z;
  Created : Z;
}.
End Audio.

Module Video.
Record t := {
  ID : Z;
  Title : string;
  Suffix : string;
  Size : Z;
  CoverArt : Z;
  Created : Z;
}.
End Video.

(** The answer of [GetMusicDirectory]. *)
Module Content.
Record t := {
  Directories : list Directory.t;
  Audio : list Audio.t;
  Video : list Video.t;
}.
End Content.

(** ** Filename templates *)

Module Template.

#[local] Open Scope string_scope.

(** The anonymous struct [filenameCtx] handed to the template. *)
Record Ctx := {
  A : Audio.t;
  Artist : string;
  Album : string;
  Track : Z;
  Title : string;
  Suffix : string;
  Path : string;
  Basename : string;
}.

Definition set_Basename (b : string) (c : Ctx) : Ctx :=
  {| A := A c; Artist := Artist c; Album := Album c; Track := Track c;
     Title := Title c; Suffix := Suffix c; Path := Path c; Basename := b |}.

(** A parsed template, seen from the program: [Execute] into a buffer
    either fails ([None]) or leaves a string. *)
Definition t : Type := Ctx → option string.

(** *** A fragment of the template language: text and field chains *)

Inductive Node :=
| Text (s : string)
| Field (chain : list string).    (* {{.A.Title}} is Field ["A"; "Title"] *)

(** The fields of [gosubsonic.Audio] that are modelled, printed the way
    [fmt] prints a string or an integer. *)
Definition audio_field (a : Audio.t) (name : string) : option string :=
  if String.eqb name "ID" then Some (GoStrings.FormatInt (Audio.ID a))
  else if String.eqb name "Album" then Some (Audio.Album a)
  else if String.eqb name "Artist" then Some (Audio.Artist a)
  else if String.eqb name "Title" then Some (Audio.Title a)
  else if String.eqb name "Track" then Some (GoStrings.FormatInt (Audio.Track a))
  else if String.eqb name "Suffix" then Some (Audio.Suffix a)
  else if String.eqb name "TranscodedSuffix" then Some (Audio.TranscodedSuffix a)
  else if String.eqb name "Size" then Some (GoStrings.FormatInt (Audio.Size a))
  else if String.eqb name "DurationRaw"
       then Some (GoStrings.FormatInt (Audio.DurationRaw a))
  else if String.eqb name "Path" then Some (Audio.Path a)
  else if String.eqb name "CoverArt"
       then Some (GoStrings.FormatInt (Audio.CoverArt a))
  else None.

(** The scalar fields of the context. *)
Definition ctx_field (c : Ctx) (name : string) : option string :=
  if String.eqb name "Artist" then Some (Artist c)
  else if String.eqb name "Album" then Some (Album c)
  else if String.eqb name "Track" then Some (GoStrings.FormatInt (Track c))
  else if String.eqb name "Title" then Some (Title c)
  else if String.eqb name "Suffix" then Some (Suffix c)
  else if String.eqb name "Path" then Some (Path c)
  else if String.eqb name "Basename" then Some (Basename c)
  else None.

Definition audio_fields : list string :=
  ["ID"; "Album"; "Artist"; "Title"; "Track"; "Suffix"; "TranscodedSuffix";
   "Size"; "DurationRaw"; "Path"; "CoverArt"].

(** A chain the fragment covers: a chain from a field of the context other
    than [.A], or from a modelled field of [.A].  (A chain from a field the
    context does not have, or into a string or a number, is covered:
    executing it is an error.) *)
Definition covered (chain : list string) : bool :=
  match chain with
  | [] => false
  | ["A"] => false
  | "A" :: name :: _ => bool_decide (name ∈ audio_fields)
  | _ => true
  end.

(** The value of a covered chain; [None] is an execution error (no such
    field, or a field asked of a string or a number). *)
Definition eval_chain (c : Ctx) (chain : list string) : option string :=
  match chain with
  | [name] => ctx_field c name
  | [top; name] =>
      if String.eqb top "A" then audio_field (A c) name else None
  | _ => None
  end.

Fixpoint execute (nodes : list Node) (c : Ctx) : option string :=
  match nodes with
  | [] => Some ""
  | Text s :: rest =>
      match execute rest c with
      | Some out => Some (s +:+ out)
      | None => None
      end
  | Field chain :: rest =>
      match eval_chain c chain, execute rest c with
      | Some v, Some out => Some (v +:+ out)
      | _, _ => None
      end
  end.

(** *** Reading a template of the fragment from its source text *)

Definition is_ident_char (c : ascii) : bool :=
  let n := nat_of_ascii c in
  ((48 <=? n) && (n <=? 57) || (65 <=? n) && (n <=? 90)
   || (97 <=? n) && (n <=? 122) || (n =? 95))%nat.

Fixpoint is_ident (s : string) : bool :=
  match s with
  | EmptyString => true
  | String c s' => is_ident_char c && is_ident s'
  end.

(** [".A.Title"] is the chain ["A"; "Title"]. *)
Definition parse_chain (action : string) : option (list string) :=
  match GoStrings.split_dot EmptyString action with
  | EmptyString :: names =>
      if forallb (λ n, negb (String.eqb n EmptyString) && is_ident n) names
      then Some names
      else None
  | _ => None
  end.

Definition text_node (acc : string) : list Node :=
  if String.eqb acc EmptyString then [] else [Text acc].

Inductive Mode := InText | InAction.

(** [acc] is the text or the action read so far; [skip] drops the second
    byte of a delimiter.  [None]: the source is outside the fragment. *)
Fixpoint parse_from (mode : Mode) (skip : bool) (acc : string) (s : string)
  : option (list Node) :=
  match s with
  | EmptyString =>
      match mode with
      | InText => Some (text_node acc)
      | InAction => None
      end
  | String c s' =>
      if skip then parse_from mode false acc s'
      else
        match mode with
        | InText =>
            if GoStrings.HasPrefix s "{{"
            then match parse_from InAction true EmptyString s' with
                 | Some nodes => Some ((text_node acc ++ nodes)%list)
                 | None => None
                 end
            else parse_from InText false (acc +:+ String c EmptyString) s'
        | InAction =>
            if GoStrings.HasPrefix s "}}"
            then match parse_chain acc with
                 | Some chain =>
                     if covered chain
                     then match parse_from InText true EmptyString s' with
                          | Some nodes => Some (Field chain :: nodes)
                          | None => None
                          end
                     else None
                 | None => None
                 end
            else parse_from InAction false (acc +:+ String c EmptyString) s'
        end
  end.

Definition parse (src : string) : option (list Node) :=
  parse_from InText false EmptyString src.

(** [template.New(...).Parse(src)] for a source of the fragment. *)
Definition of_source (src : string) : option t :=
  match parse src with
  | Some nodes => Some (execute nodes)
  | None => None
  end.

(** *** Vocabulary of the properties *)

(** A template whose output does not depend on [.Basename]. *)
Definition ignores_Basename (tmpl : t) : Prop :=
  ∀ c b, tmpl (set_Basename b c) = tmpl c.

(** A node of the fragment that reads [.Basename]. *)
Definition mentions_Basename (node : Node) : Prop :=
  match node with
  | Field ("Basename" :: _) => True
  | _ => False
  end.

(** A node of the fragment that names the transcoded suffix: a chain
    through a field called [TranscodedSuffix] (the context holds one, in
    [.A]). *)
Definition references_TranscodedSuffix (node : Node) : bool :=
  match node with
  | Field chain => bool_decide ("TranscodedSuffix" ∈ chain)
  | Text _ => false
  end.

End Template.

(** ** Directory nodes and their listing *)

Module SubDir.

#[local] Open Scope string_scope.

(** [SubDir].  The two maps are shared by all copies of a node. *)
Inductive t := Build {
  ID : Z;
  Root : bool;
  Folder : bool;
  dirs : gmap string t;
  files : gmap string SubFile.t;
}.

(** [NewSubDir]. *)
Definition NewSubDir (ID : Z) (Root Folder : bool) : t :=
  {| ID := ID; Root := Root; Folder := Folder; dirs := ∅; files := ∅ |}.

(** What a handler returns in place of an [fs.Node]. *)
Inductive Node :=
| DirNode (d : t)
| FileNode (f : SubFile.t).

(** [Attr]: [os.ModeDir | 0555]; the permission bits are kept. *)
Definition Attr (d : t) : Z := 365.   (* 0o555 *)

(** *** The read-only handlers.  The requests and the interrupt channel
    are the transport's; no handler looks at them. *)

Section ReadOnly.
Context {Req Res Intr Handle : Type}.

Definition Create (d : t) (req : Req) (res : Res) (intr : Intr)
  : option Node * option Handle * option Fuse.Errno :=
  (None, None, Some Fuse.EROFS).

Definition Fsync (d : t) (req : Req) (intr : Intr) : option Fuse.Errno :=
  Some Fuse.EROFS.

Definition Link (d : t) (req : Req) (node : Node) (intr : Intr)
  : option Node * option Fuse.Errno :=
  (None, Some Fuse.EROFS).

Definition Mkdir (d : t) (req : Req) (intr : Intr)
  : option Node * option Fuse.Errno :=
  (None, Some Fuse.EROFS).

Definition Mknod (d : t) (req : Req) (intr : Intr)
  : option Node * option Fuse.Errno :=
  (None, Some Fuse.EROFS).

Definition Remove (d : t) (req : Req) (intr : Intr) : option Fuse.Errno :=
  Some Fuse.EROFS.

Definition Removexattr (d : t) (req : Req) (intr : Intr)
  : option Fuse.Errno :=
  Some Fuse.EROFS.

Definition Rename (d : t) (req : Req) (node : Node) (intr : Intr)
  : option Fuse.Errno :=
  Some Fuse.EROFS.

Definition Setattr (d : t) (req : Req) (res : Res) (intr : Intr)
  : option Fuse.Errno :=
  Some Fuse.EROFS.

Definition Setxattr (d : t) (req : Req) (intr : Intr)
  : option Fuse.Errno :=
  Some Fuse.EROFS.

Definition Symlink (d : t) (req : Req) (intr : Intr)
  : option Node * option Fuse.Errno :=
  (None, Some Fuse.EROFS).
End ReadOnly.

(** The mutating calls of the transport, with what each carries. *)
Inductive Mutation {Req Res : Type} :=
| MCreate (req : Req) (res : Res)
| MFsync (req : Req)
| MLink (req : Req) (node : Node)
| MMkdir (req : Req)
| MMknod (req : Req)
| MRemove (req : Req)
| MRemovexattr (req : Req)
| MRename (req : Req) (node : Node)
| MSetattr (req : Req) (res : Res)
| MSetxattr (req : Req)
| MSymlink (req : Req).
Arguments Mutation : clear implicits.

(** The answer to a mutating call: the node handed back, if any, and the
    error. *)
Definition serve_mutation {Req Res Intr : Type} (d : t)
    (m : Mutation Req Res) (intr : Intr) : option Node * option Fuse.Errno :=
  match m with
  | MCreate req res =>
      let '(n, _, e) := Create (Handle := unit) d req res intr in (n, e)
  | MFsync req => (None, Fsync d req intr)
  | MLink req node => Link d req node intr
  | MMkdir req => Mkdir d req intr
  | MMknod req => Mknod d req intr
  | MRemove req => (None, Remove d req intr)
  | MRemovexattr req => (None, Removexattr d req intr)
  | MRename req node => (None, Rename d req node intr)
  | MSetattr req res => (None, Setattr d req res intr)
  | MSetxattr req => (None, Setxattr d req intr)
  | MSymlink req => Symlink d req intr
  end.

(** *** Listing *)

(** The program state and the world that a listing reads. *)
Record Env := {
  (* the global filenameTemplate *)
  filenameTemplate : Template.t;
  (* the global artistsIndex when the call starts *)
  artistsIndex : gmap MusicFolder.t (list IndexArtist.t);
  (* <-indexChan: the index at the time a value arrives; None when no
     value ever arrives *)
  indexChan : option (gmap MusicFolder.t (list IndexArtist.t));
  (* subsonic.GetMusicDirectory: None on error *)
  GetMusicDirectory : Z → option Content.t;
}.

(** The variables of [ReadDir] that its loops update: the two maps of the
    node, the set [coverArt] and the slice [directories]. *)
Record Listing := {
  l_dirs : gmap string t;
  l_files : gmap string SubFile.t;
  l_coverArt : gset Z;
  l_directories : list Fuse.Dirent;
}.

Definition badChars : list string := ["/"; "\"].

(** [for _, b := range badChars { name = strings.Replace(name, b, "_", -1) }] *)
Definition sanitize (name : string) : string :=
  fold_left (λ n b, GoStrings.Replace n b "_") badChars name.

(** A directory entry of the listing and its node in [d.dirs]. *)
Definition add_dir (name : string) (node : t) (l : Listing) : Listing :=
  {| l_dirs := <[name := node]> (l_dirs l);
     l_files := l_files l;
     l_coverArt := l_coverArt l;
     l_directories :=
       l_directories l ++ [{| Fuse.Name := name; Fuse.Type_ := Fuse.DT_Dir |}] |}.

(** A file entry of the listing and its node in [d.files]. *)
Definition add_file (name : string) (f : SubFile.t) (l : Listing) : Listing :=
  {| l_dirs := l_dirs l;
     l_files := <[name := f]> (l_files l);
     l_coverArt := l_coverArt l;
     l_directories :=
       l_directories l ++ [{| Fuse.Name := name; Fuse.Type_ := Fuse.DT_File |}] |}.

(** [coverArt.Add(c)]. *)
Definition add_coverArt (c : Z) (l : Listing) : Listing :=
  {| l_dirs := l_dirs l;
     l_files := l_files l;
     l_coverArt := {[c]} ∪ l_coverArt l;
     l_directories := l_directories l |}.

(** Root: one directory per music folder. *)
Definition add_folder (l : Listing) (folder : MusicFolder.t) : Listing :=
  add_dir (MusicFolder.Name folder)
          (NewSubDir (MusicFolder.ID folder) false true) l.

(** Music folder: one directory per artist. *)
Definition add_artist (l : Listing) (a : IndexArtist.t) : Listing :=
  add_dir (IndexArtist.Name a) (NewSubDir (IndexArtist.ID a) false false) l.

Definition add_artists_of (d : t) (l : Listing)
    (entry : MusicFolder.t * list IndexArtist.t) : Listing :=
  if (ID d =? MusicFolder.ID entry.1)%Z || (ID d =? -1)%Z
  then fold_left add_artist entry.2 l
  else l.

(** "Iterate all returned directories". *)
Definition add_directory (l : Listing) (dir : Directory.t) : Listing :=
  let title := sanitize (Directory.Title dir) in
  add_coverArt (Directory.CoverArt dir)
    (add_dir title (NewSubDir (Directory.ID dir) false false) l).

(** The struct [filenameCtx] built for the variant of suffix [suffix]. *)
Definition filenameCtx (a : Audio.t) (suffix : string) : Template.Ctx :=
  {| Template.A := a;
     Template.Artist := Audio.Artist a;
     Template.Album := Audio.Album a;
     Template.Track := Audio.Track a;
     Template.Title := Audio.Title a;
     Template.Suffix := Audio.Suffix a;
     Template.Path := Audio.Path a;
     Template.Basename := GoStrings.TrimSuffix (Audio.Path a) suffix |}.

(** The slice [transcodes]: the original, then the transcoded variant. *)
Definition transcodes (a : Audio.t) : list (string * Z) :=
  [(Audio.Suffix a, Audio.Size a); (Audio.TranscodedSuffix a, 0)].

(** [((a.DurationRaw * 320) / 8) * 1024]. *)
Definition estimate (a : Audio.t) : Z :=
  Int64.mul (Int64.div (Int64.mul (Audio.DurationRaw a) 320) 8) 1024.

(** The file node of a variant that rendered [filename]. *)
Definition audio_file (a : Audio.t) (v : string * Z) (filename : string)
  : SubFile.t :=
  {| SubFile.ID := Audio.ID a;
     SubFile.Created := Audio.Created a;
     SubFile.FileName := filename;
     SubFile.Size := if (v.2 =? 0)%Z then estimate a else v.2;
     SubFile.IsVideo := false;
     SubFile.IsArt := false;
     SubFile.Lossless := negb (v.2 =? 0)%Z |}.

(** The filename of the variant of suffix [suffix]: the template executed
    on the context, then the bad characters replaced.  [None] when
    [Execute] fails. *)
Definition render (tmpl : Template.t) (a : Audio.t) (suffix : string)
  : option string :=
  match tmpl (filenameCtx a suffix) with
  | None => None
  | Some filename => Some (sanitize filename)
  end.

(** The body of [for _, t := range transcodes]. *)
Definition add_variant (tmpl : Template.t) (a : Audio.t) (l : Listing)
    (v : string * Z) : Listing :=
  if String.eqb v.1 "" then l
  else
    match render tmpl a v.1 with
    | None => l
    | Some filename =>
        add_file filename (audio_file a v filename)
                 (add_coverArt (Audio.CoverArt a) l)
    end.

(** "Iterate all returned audio". *)
Definition add_audio (tmpl : Template.t) (l : Listing) (a : Audio.t)
  : Listing :=
  fold_left (add_variant tmpl a) (transcodes a) l.

(** [fmt.Sprintf("%s.%s", v.Title, v.Suffix)], bad characters replaced. *)
Definition videoFormat (v : Video.t) : string :=
  sanitize (Video.Title v +:+ "." +:+ Video.Suffix v).

(** "Iterate all returned video". *)
Definition add_video (l : Listing) (v : Video.t) : Listing :=
  add_file (videoFormat v)
    {| SubFile.ID := Video.ID v;
       SubFile.Created := Video.Created v;
       SubFile.FileName := videoFormat v;
       SubFile.Size := Video.Size v;
       SubFile.IsVideo := true;
       SubFile.IsArt := false;
       SubFile.Lossless := false |}
    (add_coverArt (Video.CoverArt v) l).

(** [fmt.Sprintf("%d.jpg", c)]. *)
Definition coverArtFormat (c : Z) : string :=
  GoStrings.FormatInt c +:+ ".jpg".

(** "Iterate all cover art". *)
Definition add_cover (l : Listing) (c : Z) : Listing :=
  add_file (coverArtFormat c)
    {| SubFile.ID := c;
       SubFile.Created := 0;
       SubFile.FileName := coverArtFormat c;
       SubFile.Size := 0;
       SubFile.IsVideo := false;
       SubFile.IsArt := true;
       SubFile.Lossless := false |}
    l.

(** The listing of an ordinary node from the remote answer: directories,
    audio, video, then the cover art collected on the way (in the order
    the set enumerates it). *)
Definition list_content (tmpl : Template.t) (content : Content.t)
    (l : Listing) : Listing :=
  let l1 := fold_left add_directory (Content.Directories content) l in
  let l2 := fold_left (add_audio tmpl) (Content.Audio content) l1 in
  let l3 := fold_left add_video (Content.Video content) l2 in
  fold_left add_cover (elements (l_coverArt l3)) l3.

(** [directories := make([]fuse.Dirent, 0)], [coverArt := set.New()], and
    the maps the node already holds. *)
Definition start (d : t) : Listing :=
  {| l_dirs := dirs d; l_files := files d; l_coverArt := ∅;
     l_directories := [] |}.

(** The node with the maps as a listing left them. *)
Definition loaded (d : t) (l : Listing) : t :=
  {| ID := ID d; Root := Root d; Folder := Folder d;
     dirs := l_dirs l; files := l_files l |}.

(** A call that waits on [indexChan] may never come back. *)
Inductive Outcome (A : Type) :=
| Blocked
| Returned (d : t) (a : A) (err : option Fuse.Errno).
Arguments Blocked {A}.
Arguments Returned {A} d a err.

(** [SubDir.ReadDir]. *)
Definition ReadDir (env : Env) (d : t) : Outcome (option (list Fuse.Dirent)) :=
  if Root d then
    let index :=
      if (size (artistsIndex env) =? 0)%nat
      then indexChan env
      else Some (artistsIndex env) in
    match index with
    | None => Blocked
    | Some index =>
        let l0 := add_dir "All" (NewSubDir (-1) false true) (start d) in
        let l := fold_left add_folder (map_to_list index).*1 l0 in
        Returned (loaded d l) (Some (l_directories l)) None
    end
  else if Folder d then
    let l := fold_left (add_artists_of d) (map_to_list (artistsIndex env))
                       (start d) in
    Returned (loaded d l) (Some (l_directories l)) None
  else
    match GetMusicDirectory env (ID d) with
    | None => Returned d None (Some Fuse.ENOENT)
    | Some content =>
        let l := list_content (filenameTemplate env) content (start d) in
        Returned (loaded d l) (Some (l_directories l)) None
    end.

(** [SubDir.Lookup]. *)
Definition Lookup (env : Env) (d : t) (name : string)
  : Outcome (option Node) :=
  let after_load :=
    if (size (dirs d) =? 0)%nat && (size (files d) =? 0)%nat
    then match ReadDir env d with
         | Blocked => None
         | Returned d' _ _ => Some d'
         end
    else Some d in
  match after_load with
  | None => Blocked
  | Some d' =>
      match dirs d' !! name with
      | Some dir => Returned d' (Some (DirNode dir)) None
      | None =>
          match files d' !! name with
          | Some f => Returned d' (Some (FileNode f)) None
          | None => Returned d' None (Some Fuse.ENOENT)
          end
      end
  end.

(** *** Vocabulary of the properties *)

(** A string mapped byte by byte. *)
Fixpoint map_bytes (f : ascii → ascii) (s : string) : string :=
  match s with
  | EmptyString => EmptyString
  | String c s' => String (f c) (map_bytes f s')
  end.

(** [/] and [\] become [_], every other byte stays. *)
Definition underscore_separators (c : ascii) : ascii :=
  if (Ascii.eqb c "/" || Ascii.eqb c "\")%bool then "_"%char else c.


(** The variant [v] of [a] is listed, under the name [n]. *)
Definition emits (tmpl : Template.t) (a : Audio.t) (v : string * Z)
    (n : string) : Prop :=
  v.1 ≠ EmptyString ∧ render tmpl a v.1 = Some n.

#[global] Instance emits_dec tmpl a v n : Decision (emits tmpl a v n).
Proof. unfold emits. apply _. Defined.

(** The record [a] renders the name [n] for one of its variants. *)
Definition renders (tmpl : Template.t) (a : Audio.t) (n : string) : Prop :=
  ∃ v, v ∈ transcodes a ∧ emits tmpl a v n.





End SubDir.

(** ** The index refresh loop *)

Module IndexCache.

(** What the world answers during one turn of the loop. *)
Record Cycle := {
  (* subsonic.GetMusicFolders: None on error *)
  GetMusicFolders : option (list MusicFolder.t);
  (* subsonic.GetIndexes(folder.ID, -1): None on error *)
  GetIndexes : Z → option (list Index.t);
  (* indexChan <- true: whether a listing is there to receive *)
  received : bool;
}.

Inductive Effect :=
| EGetMusicFolders
| EGetIndexes (id : Z)
| ESend
| ESleep.

#[global] Instance Effect_eq_dec : EqDecision Effect.
Proof. solve_decision. Defined.

(** Where the goroutine stands after the cycles it was given. *)
Inductive Status :=
| Returned      (* [cacheIndexes] has returned: the goroutine is gone *)
| Blocked       (* stuck in [indexChan <- true], nobody receives *)
| Running.      (* about to start the next cycle *)

#[global] Instance Status_eq_dec : EqDecision Status.
Proof. solve_decision. Defined.

(** [artistsIndex[folder] = append(artistsIndex[folder], a)]. *)
Definition append_artist (folder : MusicFolder.t)
    (index : gmap MusicFolder.t (list IndexArtist.t)) (a : IndexArtist.t)
  : gmap MusicFolder.t (list IndexArtist.t) :=
  <[folder := default [] (index !! folder) ++ [a]]> index.

(** The body of [for _, folder := range folders]. *)
Definition refresh_folder (c : Cycle)
    (acc : gmap MusicFolder.t (list IndexArtist.t) * list Effect)
    (folder : MusicFolder.t)
  : gmap MusicFolder.t (list IndexArtist.t) * list Effect :=
  let '(index, eff) := acc in
  match GetIndexes c (MusicFolder.ID folder) with
  | None => (index, eff ++ [EGetIndexes (MusicFolder.ID folder)])
  | Some indexes =>
      (fold_left
         (λ index i, fold_left (append_artist folder) (Index.Artist i) index)
         indexes (<[folder := []]> index),
       eff ++ [EGetIndexes (MusicFolder.ID folder)])
  end.

(** [cacheIndexes], run against the answers of successive cycles. *)
Fixpoint cacheIndexes (cycles : list Cycle)
    (artistsIndex : gmap MusicFolder.t (list IndexArtist.t))
  : gmap MusicFolder.t (list IndexArtist.t) * Status * list Effect :=
  match cycles with
  | [] => (artistsIndex, Running, [])
  | c :: rest =>
      match GetMusicFolders c with
      | None => (artistsIndex, Returned, [EGetMusicFolders])
      | Some folders =>
          let '(index, eff) :=
            fold_left (refresh_folder c) folders
                      (artistsIndex, [EGetMusicFolders]) in
          if received c
          then
            let '(index', status, eff') := cacheIndexes rest index in
            (index', status, eff ++ [ESend; ESleep] ++ eff')
          else (index, Blocked, eff ++ [ESend])
      end
  end.

(** The number of attempts at the folder list. *)
Definition attempts (eff : list Effect) : nat :=
  length (filter (λ e, e = EGetMusicFolders) eff).

End IndexCache.

(** ** Concrete worlds and library items, for the examples *)

Module Samples.

#[local] Open Scope string_scope.

(** *** Reads *)

Definition enoent : string := "open /tmp/subfs1: no such file or directory".

(** A world in which [ReadFile] and [Stream] answer the same for every
    argument, temporary files are created under the given name and writes
    succeed. *)
Definition world (readFile : option (list Byte.byte) * option string)
    (stream : option Cache.Stream) (tmp : string) : Cache.Env :=
  {| Cache.env_ReadFile := λ _, readFile;
     Cache.env_Stream := λ _, stream;
     Cache.env_TempFile := Some tmp;
     Cache.env_Write := λ _ _, true |}.

(** A stream that delivers three bytes. *)
Definition delivers : option Cache.Stream :=
  Some {| Cache.st_ReadAll := Some [Byte.x49; Byte.x44; Byte.x33];
          Cache.st_Close := true |}.

(** A stream that opens, ends at once and closes: no byte. *)
Definition delivers_nothing : option Cache.Stream :=
  Some {| Cache.st_ReadAll := Some []; Cache.st_Close := true |}.

(** Two albums can each hold a first track called "Intro" by the same
    artist: same file name, different item, different size. *)
Definition intro_track (id size : Z) : SubFile.t :=
  {| SubFile.ID := id; SubFile.Created := 0;
     SubFile.FileName := "01 - Artist - Intro.mp3"; SubFile.Size := size;
     SubFile.IsVideo := false; SubFile.IsArt := false;
     SubFile.Lossless := true |}.

(** A cover art node, as the listing creates it: no declared size. *)
Definition cover_5 : SubFile.t :=
  {| SubFile.ID := 5; SubFile.Created := 0; SubFile.FileName := "5.jpg";
     SubFile.Size := 0; SubFile.IsVideo := false; SubFile.IsArt := true;
     SubFile.Lossless := false |}.

(** A 60 MB track. *)
Definition large_track : SubFile.t :=
  {| SubFile.ID := 9; SubFile.Created := 0;
     SubFile.FileName := "02 - Artist - Suite.flac";
     SubFile.Size := 60 * 1024 * 1024;
     SubFile.IsVideo := false; SubFile.IsArt := false;
     SubFile.Lossless := true |}.

(** The cache after [intro_track 1 100] was read once. *)
Definition cached_intro : Cache.State :=
  {| Cache.fileCache :=
       {[ "01 - Artist - Intro.mp3" :=
            {| Cache.cr_file := "/tmp/subfs1";
               Cache.cr_entry := intro_track 1 100 |} ]};
     Cache.cacheTotal := 100 |}.

(** An uninterrupted read. *)
Definition request (s : SubFile.t) (env : Cache.Env) : Cache.Request :=
  {| Cache.rq_file := s; Cache.rq_env := env; Cache.rq_intr := false |}.

(** *** Listings *)

(** The template of a source of the fragment ([main] exits on a source
    that does not parse). *)
Definition template_of (src : string) : Template.t :=
  match Template.of_source src with
  | Some tmpl => tmpl
  | None => λ _, None
  end.

Definition track_title_suffix : Template.t :=
  template_of "{{.A.Track}}-{{.A.Title}}.{{.A.Suffix}}".

(** A template that reads [.Basename]. *)
Definition basename_suffix : Template.t :=
  template_of "{{.Basename}}.{{.Suffix}}".

(** Track 3 of an album. *)
Definition song (id : Z) (title suffix transcoded : string) : Audio.t :=
  {| Audio.ID := id; Audio.Album := "Album"; Audio.Artist := "Artist";
     Audio.Title := title; Audio.Track := 3; Audio.Suffix := suffix;
     Audio.TranscodedSuffix := transcoded; Audio.Size := 1000;
     Audio.DurationRaw := 60;
     Audio.Path := "Artist/Album/song." +:+ suffix;
     Audio.CoverArt := 5; Audio.Created := 0 |}.

Definition album (audio : list Audio.t) : Content.t :=
  {| Content.Directories := []; Content.Audio := audio;
     Content.Video := [] |}.

(** Two records of the same track number, title and suffix. *)
Definition two_songs : Content.t :=
  album [song 7 "Song" "mp3" ""; song 8 "Song" "mp3" ""].

Definition serving (tmpl : Template.t) (content : Content.t) : SubDir.Env :=
  {| SubDir.filenameTemplate := tmpl; SubDir.artistsIndex := ∅;
     SubDir.indexChan := None;
     SubDir.GetMusicDirectory := λ _, Some content |}.

Definition album_node : SubDir.t := SubDir.NewSubDir 42 false false.

Definition file_dirent (n : string) : Fuse.Dirent :=
  {| Fuse.Name := n; Fuse.Type_ := Fuse.DT_File |}.

(** *** Index refreshes *)

Definition music : MusicFolder.t :=
  {| MusicFolder.ID := 1; MusicFolder.Name := "Music" |}.

Definition abba : IndexArtist.t :=
  {| IndexArtist.ID := 10; IndexArtist.Name := "ABBA" |}.

Definition beck : IndexArtist.t :=
  {| IndexArtist.ID := 11; IndexArtist.Name := "Beck" |}.

(** A cycle in which the server answers and a listing is waiting. *)
Definition healthy (artists : list IndexArtist.t) : IndexCache.Cycle :=
  {| IndexCache.GetMusicFolders := Some [music];
     IndexCache.GetIndexes := λ _, Some [{| Index.Artist := artists |}];
     IndexCache.received := true |}.

(** A cycle in which the folder list cannot be fetched. *)
Definition folders_down : IndexCache.Cycle :=
  {| IndexCache.GetMusicFolders := None;
     IndexCache.GetIndexes := λ _, None;
     IndexCache.received := true |}.

End Samples.

(** ** Further vocabulary, models and samples *)

Module Flat.

#[local] Open Scope string_scope.

(** [SubDir]: a directory known by its identifier and its path. *)
Record SubDir := { ID : Z; RelPath : string }.

(** The globals [nameToDir] and [nameToFile]. *)
Record State := {
  nameToDir : gmap string SubDir;
  nameToFile : gmap string SubFile.t;
}.

(** [main]: both maps start empty. *)
Definition init : State := {| nameToDir := ∅; nameToFile := ∅ |}.

(** [SubFS.Root]. *)
Definition Root : SubDir := {| ID := 0; RelPath := "" |}.

(** What the remote service answers during a listing. *)
Record Env := {
  (* subsonic.GetIndexes(-1, -1): None on error *)
  GetIndexes : option (list Index.t);
  (* subsonic.GetMusicDirectory: None on error *)
  GetMusicDirectory : Z → option Content.t;
}.

Inductive Node :=
| DirNode (d : SubDir)
| FileNode (f : SubFile.t).

(** [%02d]: at least two bytes, zeros in front. *)
Definition FormatInt02 (z : Z) : string :=
  let s := GoStrings.FormatInt z in
  if (String.length s <? 2)%nat then "0" +:+ s else s.

(** [fmt.Sprintf("%02d - %s - %s.%s", a.Track, a.Artist, a.Title, a.Suffix)]. *)
Definition audioFormat (a : Audio.t) : string :=
  FormatInt02 (Audio.Track a) +:+ " - " +:+ Audio.Artist a +:+ " - "
  +:+ Audio.Title a +:+ "." +:+ Audio.Suffix a.

(** [fmt.Sprintf("%s.%s", v.Title, v.Suffix)]. *)
Definition videoFormat (v : Video.t) : string :=
  Video.Title v +:+ "." +:+ Video.Suffix v.

(** A file node of this tree: no flags. *)
Definition file (id created : Z) (name : string) (size : Z) : SubFile.t :=
  {| SubFile.ID := id; SubFile.Created := created; SubFile.FileName := name;
     SubFile.Size := size; SubFile.IsVideo := false; SubFile.IsArt := false;
     SubFile.Lossless := false |}.

(** The variables a listing updates: the globals and [directories]. *)
Definition Listing : Type := State * list Fuse.Dirent.

Definition add_dir (name : string) (node : SubDir) (l : Listing) : Listing :=
  ({| nameToDir := <[name := node]> (nameToDir l.1);
      nameToFile := nameToFile l.1 |},
   (l.2 ++ [{| Fuse.Name := name; Fuse.Type_ := Fuse.DT_Dir |}])%list).

Definition add_file (name : string) (f : SubFile.t) (l : Listing) : Listing :=
  ({| nameToDir := nameToDir l.1;
      nameToFile := <[name := f]> (nameToFile l.1) |},
   (l.2 ++ [{| Fuse.Name := name; Fuse.Type_ := Fuse.DT_File |}])%list).

(** "Iterate all artists". *)
Definition add_artist (l : Listing) (a : IndexArtist.t) : Listing :=
  add_dir (IndexArtist.Name a) {| ID := IndexArtist.ID a; RelPath := "" |} l.

(** "Iterate indices". *)
Definition add_index (l : Listing) (i : Index.t) : Listing :=
  fold_left add_artist (Index.Artist i) l.

(** "Iterate all returned directories". *)
Definition add_directory (d : SubDir) (l : Listing) (dir : Directory.t)
  : Listing :=
  add_dir (Directory.Title dir)
          {| ID := Directory.ID dir;
             RelPath := RelPath d +:+ Directory.Title dir |} l.

(** "Iterate all returned audio". *)
Definition add_audio (l : Listing) (a : Audio.t) : Listing :=
  add_file (audioFormat a)
           (file (Audio.ID a) (Audio.Created a) (audioFormat a) (Audio.Size a))
           l.

(** "Iterate all returned video". *)
Definition add_video (l : Listing) (v : Video.t) : Listing :=
  add_file (videoFormat v)
           (file (Video.ID v) (Video.Created v) (videoFormat v) (Video.Size v))
           l.

(** [SubDir.ReadDir]: the index at the root (the directory of empty path),
    the remote directory elsewhere. *)
Definition ReadDir (env : Env) (st : State) (d : SubDir)
  : State * option (list Fuse.Dirent) * option Fuse.Errno :=
  if String.eqb (RelPath d) "" then
    match GetIndexes env with
    | None => (st, None, Some Fuse.ENOENT)
    | Some index =>
        let l := fold_left add_index index (st, []) in
        (l.1, Some l.2, None)
    end
  else
    match GetMusicDirectory env (ID d) with
    | None => (st, None, Some Fuse.ENOENT)
    | Some content =>
        let l1 := fold_left (add_directory d) (Content.Directories content)
                            (st, []) in
        let l2 := fold_left add_audio (Content.Audio content) l1 in
        let l3 := fold_left add_video (Content.Video content) l2 in
        (l3.1, Some l3.2, None)
    end.

(** [SubDir.Lookup]; the directory asked is not looked at. *)
Definition Lookup (st : State) (d : SubDir) (name : string)
  : option Node * option Fuse.Errno :=
  match nameToDir st !! name with
  | Some dir => (Some (DirNode {| ID := ID dir; RelPath := name +:+ "/" |}), None)
  | None =>
      match nameToFile st !! name with
      | Some f => (Some (FileNode f), None)
      | None => (None, Some Fuse.ENOENT)
      end
  end.

(** [SubFile.Attr]: mode 0644, the creation time, [uint64(s.Size)]. *)
Definition Attr (s : SubFile.t) : Z * Z * Z :=
  (420, SubFile.Created s, SubFile.Size s mod 2 ^ 64).

(** *** Vocabulary of the properties *)

(** Every entry has a node under its name, a directory for a directory
    entry. *)
Definition resolvable (l : Listing) : Prop :=
  ∀ e, e ∈ l.2 →
    (Fuse.Type_ e = Fuse.DT_Dir → is_Some (nameToDir l.1 !! Fuse.Name e))
    ∧ (is_Some (nameToDir l.1 !! Fuse.Name e)
       ∨ is_Some (nameToFile l.1 !! Fuse.Name e)).

End Flat.

(** ** Shutdown: the unmount attempts and the close of [main] *)

Module Shutdown.

Inductive Effect :=
| EWait          (* <-time.After(time.Second * 3) *)
| EUnmount       (* fuse.Unmount of the mount point *)
| EClose.        (* c.Close() *)

#[global] Instance Effect_eq_dec : EqDecision Effect.
Proof. solve_decision. Defined.

(** How the loop ends. *)
Inductive Status :=
| Exit1          (* os.Exit(1) *)
| Proceed.       (* on to "Close the FUSE filesystem" *)

(** How [main] ends. *)
Inductive Ending :=
| Exits (code : Z)   (* os.Exit(1), also at the end of log.Fatalf *)
| Returns.           (* "subfs: done!", return *)

(** [retry := 3]. *)
Definition retry : nat := 3.

(** The loop [for i := 0; i < retry+1; i++], entered at [i] with [n] turns
    left; [unmount i] tells whether the call of turn [i] succeeds. *)
Fixpoint unmount_from (n i : nat) (unmount : nat → bool)
  : Status * list Effect :=
  match n with
  | O => (Proceed, [])
  | S n' =>
      let wait := if (0 <? i)%nat then [EWait] else [] in
      if unmount i then (Proceed, wait ++ [EUnmount])
      else if (i =? retry)%nat then (Exit1, wait ++ [EUnmount])
      else
        let '(status, eff) := unmount_from n' (S i) unmount in
        (status, wait ++ [EUnmount] ++ eff)
  end.

Definition unmount_loop (unmount : nat → bool) : Status * list Effect :=
  unmount_from (retry + 1) 0 unmount.

(** The end of [main], from "Attempt to unmount the FUSE filesystem" on:
    the loop, then [c.Close()], whose error goes to [log.Fatalf]. *)
Definition shutdown (unmount : nat → bool) (close : bool)
  : Ending * list Effect :=
  match unmount_loop unmount with
  | (Exit1, eff) => (Exits 1, eff)
  | (Proceed, eff) =>
      if close then (Returns, eff ++ [EClose])
      else (Exits 1, eff ++ [EClose])
  end.

(** *** Vocabulary of the properties *)

(** The calls of [n] attempts in a row: an unmount, then a wait and an
    unmount for each further attempt. *)
Fixpoint attempts (n : nat) : list Effect :=
  match n with
  | O => []
  | S n' =>
      match n' with
      | O => [EUnmount]
      | S _ => attempts n' ++ [EWait; EUnmount]
      end
  end.

End Shutdown.

(** ** Reads that overlap *)

Module Sched.

Import Cache.

(** The goroutine of a read whose bytes were received: [ReadAll] has
    returned, the goroutine still has the admission checks, the temporary
    file and the registration to run. *)
Record Tail := {
  tl_file : SubFile.t;
  tl_env : Env;
  tl_bytes : list Byte.byte;
}.

(** [ReadAll] up to its return: the goroutine runs to its send and the
    [select] takes the bytes or the interrupt.  A goroutine whose fetched
    bytes were received is left with its tail; one that sent what the cache
    or a failed stream gave has returned; one whose requester took the
    interrupt stays blocked in its send. *)
Definition serve (env : Env) (st : State) (s : SubFile.t) (intr : bool)
  : Run (Result * option Tail) :=
  match checkCache env st s with
  | Panic => Panic
  | Done (st1, Hit buf, eff) =>
      if intr
      then Done ({| r_state := st1; r_data := None;
                    r_err := Some Fuse.EINTR; r_effects := eff |}, None)
      else Done ({| r_state := st1; r_data := buf;
                    r_err := None; r_effects := eff |}, None)
  | Done (st1, Miss, eff) =>
      match fetch env s with
      | (None, eff') =>
          if intr
          then Done ({| r_state := st1; r_data := None;
                        r_err := Some Fuse.EINTR; r_effects := eff ++ eff' |},
                     None)
          else Done ({| r_state := st1; r_data := None;
                        r_err := None; r_effects := eff ++ eff' |}, None)
      | (Some file, eff') =>
          if intr
          then Done ({| r_state := st1; r_data := None;
                        r_err := Some Fuse.EINTR; r_effects := eff ++ eff' |},
                     None)
          else Done ({| r_state := st1; r_data := Some file;
                        r_err := None; r_effects := eff ++ eff' |},
                     Some {| tl_file := s; tl_env := env; tl_bytes := file |})
      end
  end.

(** The tail of a goroutine, run in one piece. *)
Definition finish (cacheSize : Z) (st : State) (t : Tail)
  : State * list Effect :=
  tryCache (tl_env t) cacheSize st (tl_file t) (tl_bytes t).

(** What happens next: a read arrives and is served up to its return, or
    the [i]-th of the goroutines left with a tail runs it. *)
Inductive Event :=
| Arrive (rq : Request)
| Resume (i : nat).

(** A schedule, run on the globals and the goroutines left with a tail.
    (Each event is run in one piece; a [Resume] that names no goroutine does
    nothing.) *)
Fixpoint exec (cacheSize : Z) (evs : list Event) (st : State)
    (waiting : list Tail) : Run (State * list Tail) :=
  match evs with
  | [] => Done (st, waiting)
  | Arrive rq :: rest =>
      match serve (rq_env rq) st (rq_file rq) (rq_intr rq) with
      | Panic => Panic
      | Done (r, t) =>
          exec cacheSize rest (r_state r) (waiting ++ option_list t)
      end
  | Resume i :: rest =>
      match waiting !! i with
      | None => exec cacheSize rest st waiting
      | Some t => exec cacheSize rest (finish cacheSize st t).1 (delete i waiting)
      end
  end.


End Sched.

Module CacheTerms.

Import Cache.


End CacheTerms.

Module TreeTerms.

Import SubDir.

(** Two runs of the loops that differ in the maps they started from: the
    first started with [D] and [F] under what the second started with. *)
Definition over (D : gmap string SubDir.t) (F : gmap string SubFile.t)
    (la lb : Listing) : Prop :=
  l_directories la = l_directories lb
  ∧ l_coverArt la = l_coverArt lb
  ∧ l_dirs la = l_dirs lb ∪ D
  ∧ l_files la = l_files lb ∪ F.

(** The loop variables of a listing that starts from empty maps. *)
Definition bare : Listing :=
  {| l_dirs := ∅; l_files := ∅; l_coverArt := ∅; l_directories := [] |}.

(** Every entry of the listing has a node under its name: a directory
    entry in the map of directories, a file entry in the map of files, where
    it stands under its own file name. *)
Definition resolvable (l : Listing) : Prop :=
  ∀ e, e ∈ l_directories l →
    match Fuse.Type_ e with
    | Fuse.DT_Dir => is_Some (l_dirs l !! Fuse.Name e)
    | Fuse.DT_File =>
        ∃ f, l_files l !! Fuse.Name e = Some f
             ∧ SubFile.FileName f = Fuse.Name e
    end.

(** A byte that separates path segments. *)
Definition is_separator (c : ascii) : bool :=
  (Ascii.eqb c "/" || Ascii.eqb c "\")%bool.

Fixpoint has_separator (s : string) : bool :=
  match s with
  | EmptyString => false
  | String c s' => is_separator c || has_separator s'
  end.

(** Every entry of the listing is a single path segment. *)
Definition segments (l : Listing) : Prop :=
  ∀ e, e ∈ l_directories l → has_separator (Fuse.Name e) = false.

(** The node a cover art identifier is listed as. *)
Definition cover_file (c : Z) : SubFile.t :=
  {| SubFile.ID := c; SubFile.Created := 0;
     SubFile.FileName := coverArtFormat c; SubFile.Size := 0;
     SubFile.IsVideo := false; SubFile.IsArt := true;
     SubFile.Lossless := false |}.

(** A directory entry. *)
Definition dir_dirent (n : string) : Fuse.Dirent :=
  {| Fuse.Name := n; Fuse.Type_ := Fuse.DT_Dir |}.

(** The artists a music folder node lists: those of the folders of its
    identifier, of every folder for the node of identifier -1. *)
Definition artists_under (d : SubDir.t)
    (index : list (MusicFolder.t * list IndexArtist.t)) : list IndexArtist.t :=
  flat_map (λ entry, if (ID d =? MusicFolder.ID entry.1) || (ID d =? -1)
                     then entry.2 else []) index.

(** The record is listed under some name. *)
Definition is_listed (tmpl : Template.t) (a : Audio.t) : bool :=
  existsb (λ v, negb (String.eqb v.1 EmptyString)
                && bool_decide (is_Some (render tmpl a v.1)))
          (transcodes a).

(** The answer without the records that are not listed. *)
Definition only_listed (tmpl : Template.t) (content : Content.t) : Content.t :=
  {| Content.Directories := Content.Directories content;
     Content.Audio := List.filter (is_listed tmpl) (Content.Audio content);
     Content.Video := Content.Video content |}.

(** The cover art identifier belongs to a directory, a listed record or a
    video of the answer. *)
Definition referenced (tmpl : Template.t) (content : Content.t) (c : Z) : Prop :=
  (∃ dir, dir ∈ Content.Directories content ∧ Directory.CoverArt dir = c)
  ∨ (∃ a, a ∈ Content.Audio content ∧ is_listed tmpl a = true
          ∧ Audio.CoverArt a = c)
  ∨ (∃ v, v ∈ Content.Video content ∧ Video.CoverArt v = c).

(** Each of the artists has an unloaded ordinary node under its name. *)
Definition artists_open (as_ : list IndexArtist.t) (l : Listing) : Prop :=
  ∀ a, a ∈ as_ →
    ∃ id, l_dirs l !! IndexArtist.Name a = Some (NewSubDir id false false).

End TreeTerms.

Module StringTerms.

(** No byte of the string is a dot. *)
Fixpoint dotless (s : string) : bool :=
  match s with
  | EmptyString => true
  | String c s' => negb (Ascii.eqb c ".") && dotless s'
  end.

End StringTerms.

Module MoreSamples.

Import Samples.

(** An index of one folder with two artists. *)
Definition one_folder : gmap MusicFolder.t (list IndexArtist.t) :=
  {[ music := [abba; beck] ]}.

(** A world that has this index and no remote directory. *)
Definition indexed (index : gmap MusicFolder.t (list IndexArtist.t)) : SubDir.Env :=
  {| SubDir.filenameTemplate := track_title_suffix; SubDir.artistsIndex := index;
     SubDir.indexChan := None; SubDir.GetMusicDirectory := λ _, None |}.

(** A remote service of the first tree that answers [two_songs] for every
    directory and has no index. *)
Definition flat_album : Flat.Env :=
  {| Flat.GetIndexes := None;
     Flat.GetMusicDirectory := λ _, Some two_songs |}.

End MoreSamples.

(** * Properties *)

(** ** The cache and [ReadAll] *)

Module CacheProps.

Import Cache Samples.

(** *** Arithmetic of the wrap-around *)

Lemma wrap_add_l a b : Int64.wrap (Int64.wrap a + b) = Int64.wrap (a + b).
Proof.
  unfold Int64.wrap.
  replace ((a + 2 ^ 63) mod 2 ^ 64 - 2 ^ 63 + b + 2 ^ 63)
    with ((a + 2 ^ 63) mod 2 ^ 64 + b) by lia.
  rewrite Zplus_mod_idemp_l. f_equal. f_equal. lia.
Qed.

Lemma wrap_add_r a b : Int64.wrap (a + Int64.wrap b) = Int64.wrap (a + b).
Proof. rewrite Z.add_comm, wrap_add_l. f_equal. lia. Qed.

Lemma wrap_in_range z : Int64.in_range z → Int64.wrap z = z.
Proof.
  unfold Int64.in_range, Int64.min_int, Int64.max_int, Int64.wrap. intros H.
  rewrite Z.mod_small; lia.
Qed.

(** *** The parts of the goroutine *)

Lemma evict_total st s :
  cacheTotal (evict st s) = Int64.wrap (cacheTotal st - SubFile.Size s).
Proof.
  cbn. unfold Int64.add, Int64.mul. rewrite wrap_add_r. f_equal; lia.
Qed.

Lemma checkCache_effects env st s st1 lk eff :
  checkCache env st s = Done (st1, lk, eff) → streams_opened eff = 0%nat.
Proof.
  unfold checkCache. intros H.
  destruct (fileCache st !! SubFile.FileName s) as [cFile|]; [|by inversion H].
  destruct (env_ReadFile env (cr_file cFile)) as [buf err].
  destruct (len buf =? 0)%nat; [|by inversion H].
  destruct err as [msg|]; [|done].
  destruct (GoStrings.Contains msg _); by inversion H.
Qed.

Lemma checkCache_miss env st s st1 eff :
  checkCache env st s = Done (st1, Miss, eff) →
  fileCache st1 !! SubFile.FileName s = None
  ∧ (st1 = st ∨ st1 = evict st s).
Proof.
  unfold checkCache. intros H.
  destruct (fileCache st !! SubFile.FileName s) as [cFile|] eqn:E.
  - destruct (env_ReadFile env (cr_file cFile)) as [buf err].
    destruct (len buf =? 0)%nat; [|by inversion H].
    destruct err as [msg|]; [|done].
    destruct (GoStrings.Contains msg _); inversion H; subst.
    split; [apply lookup_delete_eq | by right].
  - inversion H; subst. by split; [|left].
Qed.

Lemma fetch_streams env s : streams_opened (fetch env s).2 = 1%nat.
Proof.
  unfold fetch. destruct (env_Stream env _) as [stream|]; [|done].
  destruct (st_ReadAll stream); [|done]. by destruct (st_Close stream).
Qed.

Lemma fetch_fails env s : stream_fails env s ↔ (fetch env s).1 = None.
Proof.
  unfold stream_fails, fetch.
  destruct (env_Stream env _) as [stream|]; [|done].
  destruct (st_ReadAll stream); [|by split; [|left]].
  destruct (st_Close stream); cbn; split; intros H; try done.
  - by destruct H.
  - by right.
Qed.

Lemma streams_opened_app e1 e2 :
  streams_opened (e1 ++ e2) = (streams_opened e1 + streams_opened e2)%nat.
Proof. unfold streams_opened. by rewrite List.filter_app, length_app. Qed.

(** *** A remote stream that fails *)

(** C2 (as the code has it): when a read is not served from the cache and
    opening, reading or closing the remote stream fails, the read hands its
    caller a nil byte slice with a nil error when it is not interrupted
    ([EINTR] when it is): the failure reaches the log only.  The stream was
    opened exactly once: there is no retry.  The globals are as the cache
    check left them. *)
Theorem C2_stream_failure_returns_nil env cacheSize st s intr st1 eff :
  checkCache env st s = Done (st1, Miss, eff) →
  stream_fails env s →
  ∃ r, ReadAll env cacheSize st s intr = Done r
       ∧ r_state r = st1
       ∧ r_data r = None
       ∧ r_err r = (if intr then Some Fuse.EINTR else None)
       ∧ streams_opened (r_effects r) = 1%nat.
Proof.
  intros Hmiss Hfail. apply fetch_fails in Hfail.
  pose proof (fetch_streams env s) as Hone.
  pose proof (checkCache_effects _ _ _ _ _ _ Hmiss) as Hzero.
  unfold ReadAll. rewrite Hmiss.
  destruct (fetch env s) as [data eff']. cbn [fst snd] in Hfail, Hone. subst data.
  destruct intr; eexists; (split; [reflexivity|]);
    cbn [r_state r_data r_err r_effects];
    rewrite streams_opened_app, Hzero, Hone; done.
Qed.

(** C2 at a read of the intro track from the empty cache, the remote service
    being down. *)
Lemma C2_witness :
  ∃ r, ReadAll (world (None, Some enoent) None "/tmp/subfs1") 100 init
               (intro_track 1 100) false = Done r
       ∧ r_state r = init
       ∧ r_data r = None
       ∧ r_err r = None
       ∧ streams_opened (r_effects r) = 1%nat.
Proof.
  apply (C2_stream_failure_returns_nil
           (world (None, Some enoent) None "/tmp/subfs1") 100 init
           (intro_track 1 100) false init []).
  - reflexivity.
  - exact I.
Defined.

(** C2 as stated fails: with the remote service down, an uninterrupted read
    of a file that is not cached returns no bytes and no error. *)
Lemma C2_counterexample :
  fileCache init !! SubFile.FileName (intro_track 1 100) = None
  ∧ stream_fails (world (None, Some enoent) None "/tmp/subfs1") (intro_track 1 100)
  ∧ ∃ r, ReadAll (world (None, Some enoent) None "/tmp/subfs1") 100 init
                 (intro_track 1 100) false = Done r
         ∧ r_data r = None ∧ r_err r = None.
Proof.
  split; [done|]. split; [done|].
  eexists. split; [reflexivity|]. done.
Qed.

(** *** A cache that is full *)




(** *** A record whose backing file is gone, or empty *)

Lemma checkCache_absent env st s rec :
  fileCache st !! SubFile.FileName s = Some rec →
  backing_absent env rec →
  checkCache env st s
  = Done (evict st s, Miss, [EReadFile (cr_file rec); ECloseFile (cr_file rec)]).
Proof.
  intros Hrec [Hlen (msg & Herr & Hmsg)]. unfold checkCache. rewrite Hrec.
  destruct (env_ReadFile env (cr_file rec)) as [buf err].
  cbn [fst snd] in Hlen, Herr. subst err.
  rewrite Hlen. cbn [Nat.eqb]. by rewrite Hmsg.
Qed.

(** The half of C3 that the code keeps: when the backing file of the record
    is absent, the cache check removes the record, subtracts the declared
    size of the file read from the running total and goes on to the stream;
    the uninterrupted read ends without an error: with no bytes when the
    stream fails, with the fetched bytes when it delivers, the admission
    checks then running on the purged cache. *)
Lemma absent_backing_file_is_purged env cacheSize st s rec :
  fileCache st !! SubFile.FileName s = Some rec →
  backing_absent env rec →
  checkCache env st s
  = Done (evict st s, Miss, [EReadFile (cr_file rec); ECloseFile (cr_file rec)])
  ∧ fileCache (evict st s) !! SubFile.FileName s = None
  ∧ cacheTotal (evict st s) = Int64.wrap (cacheTotal st - SubFile.Size s)
  ∧ ∃ r, ReadAll env cacheSize st s false = Done r
         ∧ r_err r = None
         ∧ (stream_fails env s → r_data r = None ∧ r_state r = evict st s)
         ∧ (∀ file eff', fetch env s = (Some file, eff') →
              r_data r = Some file
              ∧ r_state r = (tryCache env cacheSize (evict st s) s file).1).
Proof.
  intros Hrec Habs.
  pose proof (checkCache_absent env st s rec Hrec Habs) as Hcheck.
  split; [done|]. split; [apply lookup_delete_eq|].
  split; [apply evict_total|].
  unfold ReadAll. rewrite Hcheck.
  destruct (fetch env s) as [[file|] eff'] eqn:Hfetch.
  - destruct (tryCache env cacheSize (evict st s) s file) as [st2 eff''] eqn:E.
    eexists. split; [reflexivity|]. split; [done|]. split.
    + intros Hfails. apply fetch_fails in Hfails. by rewrite Hfetch in Hfails.
    + intros file' eff0 Heq. inversion Heq; subst. by rewrite E.
  - eexists. split; [reflexivity|]. split; [done|]. split; [done|].
    intros file' eff0 Heq. inversion Heq.
Qed.

(** C3 at the failing input, reached by the program's own doing.  A file
    under a free name, within the budget and the ceiling, whose stream
    delivers no byte, is fetched, written to a temporary file and
    registered: the read returns the empty slice and no error.  The
    temporary file then holds what was written, nothing, so that [ReadFile]
    gives an empty buffer and no error: the record's backing file is empty.
    The next read of the file, interrupted or not, panics: after
    [len(buf) == 0] the condition evaluates [err.Error()] on the nil error.
    The record is not removed, the total is not decreased, nothing is
    fetched. *)
Theorem C3_empty_backing_file_panics
    env env' cacheSize st s eff' tmpFile intr :
  fileCache st !! SubFile.FileName s = None →
  fetch env s = (Some [], eff') →
  cacheTotal st <= budget cacheSize →
  Int64.add (cacheTotal st) (SubFile.Size s) <= budget cacheSize →
  SubFile.Size s <= threshold →
  env_TempFile env = Some tmpFile →
  env_Write env tmpFile [] = true →
  env_ReadFile env' tmpFile = (Some [], None) →
  ReadAll env cacheSize st s false
  = Done {| r_state := register st s tmpFile;
            r_data := Some [];
            r_err := None;
            r_effects := eff' ++ [ETempFile; EWrite tmpFile] |}
  ∧ (∃ rec, fileCache (register st s tmpFile) !! SubFile.FileName s = Some rec
            ∧ cr_file rec = tmpFile
            ∧ backing_empty env' rec)
  ∧ ReadAll env' cacheSize (register st s tmpFile) s intr = Panic.
Proof.
  intros Hfree Hfetch Htotal Hfits Hsmall Htmp Hwrite Hdisk.
  split; [|split].
  - unfold ReadAll, checkCache. rewrite Hfree, Hfetch. unfold tryCache.
    destruct (Z.ltb_spec (budget cacheSize) (cacheTotal st)); [lia|].
    destruct (Z.ltb_spec (budget cacheSize)
                (Int64.add (cacheTotal st) (SubFile.Size s))); [lia|].
    destruct (Z.ltb_spec threshold (SubFile.Size s)); [lia|].
    by rewrite Htmp, Hwrite.
  - eexists. cbn [fileCache register]. rewrite lookup_insert_eq.
    split; [reflexivity|]. split; [reflexivity|]. exact Hdisk.
  - unfold ReadAll, checkCache. cbn [fileCache register].
    rewrite lookup_insert_eq. cbn [cr_file]. by rewrite Hdisk.
Qed.

(** C3 at the intro track, its stream empty, read twice from the empty
    cache. *)
Lemma C3_witness :
  ReadAll (world (None, None) delivers_nothing "/tmp/subfs1") 100 init
          (intro_track 1 100) false
  = Done {| r_state := register init (intro_track 1 100) "/tmp/subfs1";
            r_data := Some [];
            r_err := None;
            r_effects := [EStream 1; EReadStream 1; ECloseStream 1]
                         ++ [ETempFile; EWrite "/tmp/subfs1"] |}
  ∧ (∃ rec, fileCache (register init (intro_track 1 100) "/tmp/subfs1")
              !! SubFile.FileName (intro_track 1 100) = Some rec
            ∧ cr_file rec = "/tmp/subfs1"%string
            ∧ backing_empty (world (Some [], None) delivers "/tmp/subfs2") rec)
  ∧ ReadAll (world (Some [], None) delivers "/tmp/subfs2") 100
            (register init (intro_track 1 100) "/tmp/subfs1")
            (intro_track 1 100) false = Panic.
Proof.
  apply (C3_empty_backing_file_panics
           (world (None, None) delivers_nothing "/tmp/subfs1")
           (world (Some [], None) delivers "/tmp/subfs2")
           100 init (intro_track 1 100)
           [EStream 1; EReadStream 1; ECloseStream 1] "/tmp/subfs1" false).
  - reflexivity.
  - reflexivity.
  - vm_compute. discriminate.
  - vm_compute. discriminate.
  - vm_compute. discriminate.
  - reflexivity.
  - reflexivity.
  - reflexivity.
Defined.

(** *** What one read can do to the globals *)

(** The checks either leave the globals alone or register the file, which
    is then no larger than the ceiling. *)
Lemma tryCache_cases env cacheSize st s file :
  (tryCache env cacheSize st s file).1 = st
  ∨ (SubFile.Size s <= threshold
     ∧ ∃ tmpFile, (tryCache env cacheSize st s file).1 = register st s tmpFile).
Proof.
  unfold tryCache.
  destruct (budget cacheSize <? cacheTotal st); [by left|].
  destruct (budget cacheSize <? Int64.add _ _); [by left|].
  destruct (Z.ltb_spec threshold (SubFile.Size s)); [by left|].
  destruct (env_TempFile env) as [tmpFile|]; [|by left].
  destruct (env_Write env tmpFile file); [|by left].
  right. split; [done|]. by exists tmpFile.
Qed.

(** A read leaves the globals alone, or purges the record under the name of
    its file, and may then register the file under the free name. *)
Lemma ReadAll_cases env cacheSize st s intr r :
  ReadAll env cacheSize st s intr = Done r →
  ∃ st1,
    (st1 = st ∨ (is_Some (fileCache st !! SubFile.FileName s) ∧ st1 = evict st s))
    ∧ (r_state r = st1
       ∨ (fileCache st1 !! SubFile.FileName s = None
          ∧ SubFile.Size s <= threshold
          ∧ ∃ tmpFile, r_state r = register st1 s tmpFile)).
Proof.
  unfold ReadAll.
  destruct (checkCache env st s) as [[[st1 lk] eff]|] eqn:Hcheck; [|done].
  assert (st1 = st ∨ (is_Some (fileCache st !! SubFile.FileName s)
                      ∧ st1 = evict st s)) as Hst1.
  { unfold checkCache in Hcheck.
    destruct (fileCache st !! SubFile.FileName s) as [cFile|];
      [|inversion Hcheck; by left].
    destruct (env_ReadFile env (cr_file cFile)) as [buf err].
    destruct (len buf =? 0)%nat; [|inversion Hcheck; by left].
    destruct err as [msg|]; [|done].
    destruct (GoStrings.Contains msg _); inversion Hcheck; subst;
      [right; by split | by left]. }
  intros H. exists st1. split; [done|].
  destruct lk as [buf|].
  - destruct intr; inversion H; by left.
  - destruct (checkCache_miss _ _ _ _ _ Hcheck) as [Hfree _].
    destruct (fetch env s) as [[file|] eff'].
    + destruct intr; [inversion H; by left|].
      destruct (tryCache env cacheSize st1 s file) as [st2 eff''] eqn:Hcache.
      inversion H; subst; cbn [r_state].
      destruct (tryCache_cases env cacheSize st1 s file) as [Hsame|[Hle [tmp Hreg]]];
        rewrite Hcache in *; cbn [fst] in *.
      * by left.
      * right. split; [done|]. split; [done|]. by exists tmp.
    + destruct intr; inversion H; by left.
Qed.

(** *** Files above the ceiling *)

Lemma small_records_evict st s : small_records st → small_records (evict st s).
Proof.
  intros Hsmall k rec. cbn. intros Hk.
  apply lookup_delete_Some in Hk as [_ Hk]. by eapply Hsmall.
Qed.

Lemma small_records_register st s tmpFile :
  SubFile.Size s <= threshold →
  small_records st → small_records (register st s tmpFile).
Proof.
  intros Hle Hsmall k rec. cbn. intros Hk.
  apply lookup_insert_Some in Hk as [[_ <-]|[_ Hk]]; [done|by eapply Hsmall].
Qed.

Lemma ReadAll_small_records env cacheSize st s intr r :
  small_records st →
  ReadAll env cacheSize st s intr = Done r →
  small_records (r_state r).
Proof.
  intros Hsmall Hread.
  destruct (ReadAll_cases _ _ _ _ _ _ Hread) as (st1 & Hst1 & Hr).
  assert (small_records st1) as Hsmall1.
  { destruct Hst1 as [->|[_ ->]]; [done|by apply small_records_evict]. }
  destruct Hr as [->|(_ & Hle & tmp & ->)]; [done|].
  by apply small_records_register.
Qed.

Lemma run_small_records cacheSize reqs st st' :
  small_records st →
  run cacheSize reqs st = Done st' →
  small_records st'.
Proof.
  revert st. induction reqs as [|rq rest IH]; intros st Hsmall Hrun.
  - cbn in Hrun. by inversion Hrun; subst.
  - cbn in Hrun.
    destruct (ReadAll (rq_env rq) cacheSize st (rq_file rq) (rq_intr rq))
      as [r|] eqn:Hread; [|done].
    eapply IH; [|done]. by eapply ReadAll_small_records.
Qed.

Lemma small_records_init : small_records init.
Proof. intros k rec. cbn. by rewrite lookup_empty. Qed.

(** Every record in a state reached from the empty cache was registered by
    the read of a file no larger than the ceiling. *)
Lemma records_are_of_small_files cacheSize reqs st :
  run cacheSize reqs init = Done st → small_records st.
Proof. intros Hrun. eapply run_small_records; [apply small_records_init|done]. Qed.

Lemma checkCache_no_temp_file env st s st1 lk eff :
  checkCache env st s = Done (st1, lk, eff) → temp_files_touched eff = 0%nat.
Proof.
  unfold checkCache. intros H.
  destruct (fileCache st !! SubFile.FileName s) as [cFile|]; [|by inversion H].
  destruct (env_ReadFile env (cr_file cFile)) as [buf err].
  destruct (len buf =? 0)%nat; [|by inversion H].
  destruct err as [msg|]; [|done].
  destruct (GoStrings.Contains msg _); by inversion H.
Qed.

Lemma fetch_no_temp_file env s : temp_files_touched (fetch env s).2 = 0%nat.
Proof.
  unfold fetch. destruct (env_Stream env _) as [stream|]; [|done].
  destruct (st_ReadAll stream); [|done]. by destruct (st_Close stream).
Qed.

Lemma temp_files_touched_app e1 e2 :
  temp_files_touched (e1 ++ e2)
  = (temp_files_touched e1 + temp_files_touched e2)%nat.
Proof. unfold temp_files_touched. by rewrite List.filter_app, length_app. Qed.

Lemma tryCache_large env cacheSize st s file :
  threshold < SubFile.Size s → tryCache env cacheSize st s file = (st, []).
Proof.
  intros Hlarge. unfold tryCache.
  destruct (budget cacheSize <? cacheTotal st); [done|].
  destruct (budget cacheSize <? Int64.add _ _); [done|].
  by destruct (Z.ltb_spec threshold (SubFile.Size s)); [|lia].
Qed.

(** C5 (as the code has it): a read of a file whose declared size exceeds
    50 MB adds no record to the cache, whatever the state of the cache and
    whatever the budget.  The read creates and writes no temporary file; it
    leaves the globals as they were, or as the purge of a stale record under
    the file's name left them; so every key of the cache map holds the
    record it held before, or none, and the name of the file is free after
    the read if it was free before.  This does not rest on when the
    goroutine runs its admission checks: on any globals and for any bytes
    they end at the third check and change nothing. *)
Theorem C5_large_file_adds_no_record env cacheSize st s intr r :
  threshold < SubFile.Size s →
  ReadAll env cacheSize st s intr = Done r →
  (∀ st' file, tryCache env cacheSize st' s file = (st', []))
  ∧ temp_files_touched (r_effects r) = 0%nat
  ∧ (r_state r = st
     ∨ (is_Some (fileCache st !! SubFile.FileName s) ∧ r_state r = evict st s))
  ∧ (∀ k, fileCache (r_state r) !! k = fileCache st !! k
          ∨ (k = SubFile.FileName s ∧ fileCache (r_state r) !! k = None))
  ∧ (fileCache st !! SubFile.FileName s = None →
     fileCache (r_state r) !! SubFile.FileName s = None).
Proof.
  intros Hlarge Hread.
  assert (r_state r = st
          ∨ (is_Some (fileCache st !! SubFile.FileName s)
             ∧ r_state r = evict st s)) as Hstate.
  { destruct (ReadAll_cases _ _ _ _ _ _ Hread) as (st1 & Hst1 & Hr).
    destruct Hr as [->|(_ & Hle & _)]; [done|lia]. }
  split; [intros st' file; by apply tryCache_large|].
  split; [|split; [done|split]].
  - unfold ReadAll in Hread.
    destruct (checkCache env st s) as [[[st1 lk] eff]|] eqn:Hcheck; [|done].
    pose proof (checkCache_no_temp_file _ _ _ _ _ _ Hcheck) as Hzero.
    pose proof (fetch_no_temp_file env s) as Hzero'.
    destruct lk as [buf|].
    + destruct intr; inversion Hread; subst; done.
    + destruct (fetch env s) as [[file|] eff']; cbn [snd] in Hzero'.
      * destruct intr.
        -- inversion Hread; subst. cbn [r_effects].
           by rewrite temp_files_touched_app, Hzero, Hzero'.
        -- rewrite tryCache_large in Hread by done.
           inversion Hread; subst. cbn [r_effects].
           by rewrite !temp_files_touched_app, Hzero, Hzero'.
      * destruct intr; inversion Hread; subst; cbn [r_effects];
          by rewrite temp_files_touched_app, Hzero, Hzero'.
  - intros k. destruct Hstate as [->|[_ ->]]; [by left|].
    cbn [fileCache evict].
    destruct (decide (k = SubFile.FileName s)) as [->|Hne].
    + right. split; [done|apply lookup_delete_eq].
    + left. by apply lookup_delete_ne.
  - intros Hfree. destruct Hstate as [->|[_ ->]]; [done|].
    apply lookup_delete_eq.
Qed.

(** C5 at a 60 MB track, read after the intro track was cached. *)
Lemma C5_witness :
  (∀ st' file,
     tryCache (world (None, None) delivers "/tmp/subfs2") 100 st' large_track file
     = (st', []))
  ∧ temp_files_touched [EStream 9; EReadStream 9; ECloseStream 9] = 0%nat
  ∧ (cached_intro = cached_intro
     ∨ (is_Some (fileCache cached_intro !! SubFile.FileName large_track)
        ∧ cached_intro = evict cached_intro large_track))
  ∧ (∀ k, fileCache cached_intro !! k = fileCache cached_intro !! k
          ∨ (k = SubFile.FileName large_track
             ∧ fileCache cached_intro !! k = None))
  ∧ (fileCache cached_intro !! SubFile.FileName large_track = None →
     fileCache cached_intro !! SubFile.FileName large_track = None).
Proof.
  apply (C5_large_file_adds_no_record
           (world (None, None) delivers "/tmp/subfs2") 100 cached_intro
           large_track false
           {| r_state := cached_intro;
              r_data := Some [Byte.x49; Byte.x44; Byte.x33]; r_err := None;
              r_effects := [EStream 9; EReadStream 9; ECloseStream 9] |}).
  - reflexivity.
  - reflexivity.
Defined.

(** C5 as stated fails: the cache is keyed by file name.  After the intro
    track of one album (100 bytes) was read and cached, the intro track of
    another album, of the same file name and 60 MB, is read: the read is
    answered from the temporary file of the first, and the cache holds a
    record under the name of the 60 MB file. *)
Lemma C5_counterexample :
  threshold < SubFile.Size (intro_track 2 (60 * 1024 * 1024))
  ∧ run 100
        [request (intro_track 1 100) (world (None, None) delivers "/tmp/subfs1")]
        init
    = Done cached_intro
  ∧ ∃ r, ReadAll (world (Some [Byte.x49; Byte.x44; Byte.x33], None) delivers
                        "/tmp/subfs2")
                 100 cached_intro (intro_track 2 (60 * 1024 * 1024)) false
         = Done r
         ∧ r_data r = Some [Byte.x49; Byte.x44; Byte.x33]
         ∧ r_effects r = [EReadFile "/tmp/subfs1"]
         ∧ cr_file <$> fileCache (r_state r)
                         !! SubFile.FileName (intro_track 2 (60 * 1024 * 1024))
           = Some "/tmp/subfs1"%string.
Proof.
  split; [reflexivity|]. split; [reflexivity|].
  eexists. split; [reflexivity|]. split; [reflexivity|].
  split; [reflexivity|]. reflexivity.
Qed.

(** *** The running total against the registered sizes *)

Lemma registered_total_insert (m : gmap string CacheRecord) k rec :
  m !! k = None →
  registered_total (<[k := rec]> m)
  = SubFile.Size (cr_entry rec) + registered_total m.
Proof.
  intros Hfree. unfold registered_total.
  rewrite map_fold_insert_L; [done| |done].
  intros. lia.
Qed.

Lemma registered_total_delete (m : gmap string CacheRecord) k rec :
  m !! k = Some rec →
  registered_total (delete k m)
  = registered_total m - SubFile.Size (cr_entry rec).
Proof.
  intros Hrec. unfold registered_total.
  rewrite (map_fold_delete_L _ _ k rec m); [lia| |done].
  intros. lia.
Qed.

Lemma total_inv_evict sz st s :
  size_by_name sz s →
  is_Some (fileCache st !! SubFile.FileName s) →
  total_inv sz st → total_inv sz (evict st s).
Proof.
  intros Hs [rec Hrec] [Htotal Hsizes]. split.
  - rewrite evict_total, Htotal. cbn [fileCache evict].
    rewrite (registered_total_delete _ _ rec Hrec), (Hsizes _ _ Hrec), <- Hs.
    unfold Z.sub. by rewrite wrap_add_l.
  - intros k rec'. cbn. intros Hk.
    apply lookup_delete_Some in Hk as [_ Hk]. by eapply Hsizes.
Qed.

Lemma total_inv_register sz st s tmpFile :
  size_by_name sz s →
  fileCache st !! SubFile.FileName s = None →
  total_inv sz st → total_inv sz (register st s tmpFile).
Proof.
  intros Hs Hfree [Htotal Hsizes]. split.
  - cbn [cacheTotal fileCache register]. unfold Int64.add.
    rewrite registered_total_insert by done. cbn [cr_entry].
    rewrite Htotal, wrap_add_l. f_equal. lia.
  - intros k rec. cbn. intros Hk.
    apply lookup_insert_Some in Hk as [[<- <-]|[_ Hk]]; [done|by eapply Hsizes].
Qed.

Lemma ReadAll_total_inv sz env cacheSize st s intr r :
  size_by_name sz s →
  total_inv sz st →
  ReadAll env cacheSize st s intr = Done r →
  total_inv sz (r_state r).
Proof.
  intros Hs Hinv Hread.
  destruct (ReadAll_cases _ _ _ _ _ _ Hread) as (st1 & Hst1 & Hr).
  assert (total_inv sz st1) as Hinv1.
  { destruct Hst1 as [->|[Hsome ->]]; [done|by apply total_inv_evict]. }
  destruct Hr as [->|(Hfree & _ & tmp & ->)]; [done|].
  by apply total_inv_register.
Qed.

(** Where every file name comes with one declared size, [total_inv] holds
    along any sequence of reads. *)
Lemma run_total_inv sz cacheSize reqs st st' :
  Forall (λ rq, size_by_name sz (rq_file rq)) reqs →
  total_inv sz st →
  run cacheSize reqs st = Done st' →
  total_inv sz st'.
Proof.
  intros Hreqs. revert st.
  induction Hreqs as [|rq rest Hrq _ IH]; intros st Hinv Hrun.
  - cbn in Hrun. by inversion Hrun; subst.
  - cbn in Hrun.
    destruct (ReadAll (rq_env rq) cacheSize st (rq_file rq) (rq_intr rq))
      as [r|] eqn:Hread; [|done].
    eapply IH; [|done]. by eapply ReadAll_total_inv.
Qed.

(** From the empty cache, under the same condition, the total is the
    wrapped sum of the registered sizes. *)
Lemma total_matches_when_names_fix_sizes sz cacheSize reqs st :
  Forall (λ rq, size_by_name sz (rq_file rq)) reqs →
  run cacheSize reqs init = Done st →
  cacheTotal st = Int64.wrap (registered_total (fileCache st)).
Proof.
  intros Hreqs Hrun.
  eapply (run_total_inv sz cacheSize reqs init st Hreqs); [|done].
  split; [done|]. intros k rec. cbn. by rewrite lookup_empty.
Qed.

(** And the sum itself when it fits a machine integer. *)
Lemma total_exact_when_names_fix_sizes sz cacheSize reqs st :
  Forall (λ rq, size_by_name sz (rq_file rq)) reqs →
  run cacheSize reqs init = Done st →
  Int64.in_range (registered_total (fileCache st)) →
  cacheTotal st = registered_total (fileCache st).
Proof.
  intros Hreqs Hrun Hrange.
  rewrite (total_matches_when_names_fix_sizes sz cacheSize reqs st Hreqs Hrun).
  by apply wrap_in_range.
Qed.

(** C1 at the failing input: the intro track of one album (100 bytes) is
    read and cached; its backing file disappears; the intro track of another
    album, of the same file name and 200 bytes, is read.  The purge subtracts
    200 where 100 had been added: the cache ends with one registered entry of
    declared size 200 and a running total of 100. *)
Theorem C1_total_differs_after_name_collision :
  run 100
      [request (intro_track 1 100) (world (None, None) delivers "/tmp/subfs1");
       request (intro_track 2 200)
               (world (None, Some enoent) delivers "/tmp/subfs2")]
      init
  = Done {| fileCache := {[ "01 - Artist - Intro.mp3"%string :=
                             {| cr_file := "/tmp/subfs2";
                                cr_entry := intro_track 2 200 |} ]};
            cacheTotal := 100 |}
  ∧ registered_total
      {[ "01 - Artist - Intro.mp3"%string :=
           {| cr_file := "/tmp/subfs2"; cr_entry := intro_track 2 200 |} ]}
    = 200.
Proof. split; reflexivity. Qed.

End CacheProps.

(** ** Directory nodes: listings, file names, read-only handlers *)

Module TreeProps.

Import SubDir Samples.

(** *** Bad characters *)

Lemma replace_one_byte (o n : ascii) (s : string) :
  GoStrings.Replace s (String o EmptyString) (String n EmptyString)
  = map_bytes (λ c, if Ascii.eqb o c then n else c) s.
Proof.
  unfold GoStrings.Replace.
  induction s as [|c s IH]; [done|].
  cbn [GoStrings.replace_from map_bytes].
  unfold GoStrings.HasPrefix. cbn [String.prefix String.length].
  destruct (ascii_dec o c) as [->|Hne].
  - rewrite Ascii.eqb_refl.
    replace (String.prefix "" s) with true by (by destruct s).
    cbn. by rewrite <- IH.
  - apply Ascii.eqb_neq in Hne. rewrite Hne. by rewrite IH.
Qed.

Lemma map_bytes_compose f g s :
  map_bytes f (map_bytes g s) = map_bytes (λ c, f (g c)) s.
Proof. induction s; cbn; congruence. Qed.

Lemma map_bytes_ext f g s :
  (∀ c, f c = g c) → map_bytes f s = map_bytes g s.
Proof. intros E. induction s; cbn; congruence. Qed.

Lemma sanitize_spec s :
  SubDir.sanitize s = map_bytes underscore_separators s.
Proof.
  unfold SubDir.sanitize, SubDir.badChars. cbn [fold_left].
  rewrite !replace_one_byte, map_bytes_compose.
  apply map_bytes_ext. intros c. unfold underscore_separators.
  destruct (Ascii.eqb "/" c) eqn:E1.
  - apply Ascii.eqb_eq in E1. subst c. done.
  - rewrite (Ascii.eqb_sym c "/"), E1. cbn.
    rewrite (Ascii.eqb_sym c "\"). done.
Qed.

(** C8: the template [{{.A.Track}}-{{.A.Title}}.{{.A.Suffix}}] gives track
    3, "Song", "mp3" the file name "3-Song.mp3", and the same track titled
    "A/B" the file name "3-A_B.mp3"; in general the file name is the rendered
    one with every [/] and every backslash replaced by [_] and every other
    byte kept. *)
Theorem C8_track_title_suffix_filenames :
  Template.of_source "{{.A.Track}}-{{.A.Title}}.{{.A.Suffix}}"
  = Some track_title_suffix
  ∧ render track_title_suffix (song 7 "Song" "mp3" "") "mp3"
    = Some "3-Song.mp3"%string
  ∧ render track_title_suffix (song 7 "A/B" "mp3" "") "mp3"
    = Some "3-A_B.mp3"%string
  ∧ ∀ s, sanitize s = map_bytes underscore_separators s.
Proof.
  split; [reflexivity|].
  split; [vm_compute; reflexivity|].
  split; [vm_compute; reflexivity|].
  apply sanitize_spec.
Qed.

(** *** The loops of a listing *)

(** An invariant of the body of a loop holds after the loop. *)
Lemma fold_left_inv {A B} (P : A → Prop) (f : A → B → A) (xs : list B)
    (a : A) :
  (∀ a x, x ∈ xs → P a → P (f a x)) → P a → P (fold_left f xs a).
Proof.
  revert a. induction xs as [|x xs IH]; intros a Hstep Ha; [done|].
  cbn. apply IH.
  - intros a' x' Hx'. apply Hstep. by right.
  - apply Hstep; [by left|done].
Qed.






















Lemma add_cover_other l c n :
  coverArtFormat c ≠ n → l_files (add_cover l c) !! n = l_files l !! n.
Proof. intros Hne. cbn. by apply lookup_insert_ne. Qed.

Lemma cover_loop_other cs l n :
  Forall (λ c, coverArtFormat c ≠ n) cs →
  l_files (fold_left add_cover cs l) !! n = l_files l !! n.
Proof.
  intros Hno. revert l. induction Hno as [|c cs Hc _ IH]; intros l; [done|].
  cbn [fold_left]. rewrite IH. by apply add_cover_other.
Qed.













(** *** Two records of one name *)


(** The listing of [two_songs], evaluated. *)
Example list_album :
  ReadDir (serving track_title_suffix
             (album [song 7 "Song" "mp3" ""; song 8 "Song" "mp3" ""]))
          (NewSubDir 42 false false)
  = Returned
      (loaded (NewSubDir 42 false false)
         (list_content track_title_suffix
            (album [song 7 "Song" "mp3" ""; song 8 "Song" "mp3" ""])
            (start (NewSubDir 42 false false))))
      (Some [file_dirent "3-Song.mp3"; file_dirent "3-Song.mp3";
             file_dirent "5.jpg"])
      None.
Proof. vm_compute. reflexivity. Qed.



(** *** The two variants of a record *)

(** A template of the fragment that has no chain from [.Basename] does not
    depend on it. *)
Lemma ctx_field_ignores_Basename c b name :
  name ≠ "Basename"%string →
  Template.ctx_field (Template.set_Basename b c) name = Template.ctx_field c name.
Proof.
  intros Hne. unfold Template.ctx_field.
  destruct (String.eqb name "Artist"); [reflexivity|].
  destruct (String.eqb name "Album"); [reflexivity|].
  destruct (String.eqb name "Track"); [reflexivity|].
  destruct (String.eqb name "Title"); [reflexivity|].
  destruct (String.eqb name "Suffix"); [reflexivity|].
  destruct (String.eqb name "Path"); [reflexivity|].
  destruct (String.eqb name "Basename") eqn:E; [|reflexivity].
  by apply String.eqb_eq in E.
Qed.

Lemma eval_chain_ignores_Basename c b chain :
  ¬ Template.mentions_Basename (Template.Field chain) →
  Template.eval_chain (Template.set_Basename b c) chain
  = Template.eval_chain c chain.
Proof.
  intros Hno. destruct chain as [|name [|name' [|]]]; try done.
  cbn [Template.eval_chain]. apply ctx_field_ignores_Basename.
  intros ->. by apply Hno.
Qed.

Lemma execute_ignores_Basename nodes :
  Forall (λ node, ¬ Template.mentions_Basename node) nodes →
  Template.ignores_Basename (Template.execute nodes).
Proof.
  intros Hno c b. induction Hno as [|node nodes Hnode _ IH]; [done|].
  destruct node as [s|chain]; cbn [Template.execute].
  - by rewrite IH.
  - by rewrite IH, eval_chain_ignores_Basename.
Qed.

Lemma track_title_suffix_ignores_Basename :
  Template.ignores_Basename track_title_suffix.
Proof.
  apply execute_ignores_Basename.
  repeat constructor; intros H; exact H.
Qed.

(** C10 (as the code has it): for a record with an original and a
    transcoded suffix, the context built for the transcoded variant is the
    context of the original with another [Basename]; its [Suffix] is the
    original suffix.  Hence a template whose output does not depend on
    [Basename] renders one name for both variants, the listing gets two
    entries of that name, and the file map ends with the entry of the
    transcoded variant under it, in place of the original one: the
    identifier and the creation time of the record, the name, the size
    estimated from the duration, not a video, not cover art, not lossless. *)
Theorem C10_transcoded_variant_takes_the_name tmpl a l fn :
  Audio.Suffix a ≠ EmptyString →
  Audio.TranscodedSuffix a ≠ EmptyString →
  Template.ignores_Basename tmpl →
  render tmpl a (Audio.Suffix a) = Some fn →
  filenameCtx a (Audio.TranscodedSuffix a)
  = Template.set_Basename
      (GoStrings.TrimSuffix (Audio.Path a) (Audio.TranscodedSuffix a))
      (filenameCtx a (Audio.Suffix a))
  ∧ Template.Suffix (filenameCtx a (Audio.TranscodedSuffix a)) = Audio.Suffix a
  ∧ render tmpl a (Audio.TranscodedSuffix a) = Some fn
  ∧ l_files (add_audio tmpl l a)
    = <[fn := {| SubFile.ID := Audio.ID a;
                 SubFile.Created := Audio.Created a;
                 SubFile.FileName := fn;
                 SubFile.Size :=
                   Int64.mul (Int64.div (Int64.mul (Audio.DurationRaw a) 320) 8)
                             1024;
                 SubFile.IsVideo := false;
                 SubFile.IsArt := false;
                 SubFile.Lossless := false |}]> (l_files l)
  ∧ l_directories (add_audio tmpl l a)
    = l_directories l ++ [file_dirent fn; file_dirent fn].
Proof.
  intros Hsuffix Htranscoded Hignores Hrender.
  assert (filenameCtx a (Audio.TranscodedSuffix a)
          = Template.set_Basename
              (GoStrings.TrimSuffix (Audio.Path a) (Audio.TranscodedSuffix a))
              (filenameCtx a (Audio.Suffix a))) as Hctx by done.
  assert (render tmpl a (Audio.TranscodedSuffix a) = Some fn) as Hrender'.
  { unfold render in *. by rewrite Hctx, Hignores. }
  split; [done|]. split; [done|]. split; [done|].
  unfold add_audio, transcodes. cbn [fold_left]. unfold add_variant.
  cbn [fst snd].
  apply String.eqb_neq in Hsuffix, Htranscoded.
  rewrite Hsuffix, Htranscoded, Hrender, Hrender'.
  cbn [l_files l_directories add_file add_coverArt].
  split; [by rewrite insert_insert_eq|].
  by rewrite <- app_assoc.
Qed.

(** C10 at a flac track with an mp3 transcode. *)
Lemma C10_witness :
  filenameCtx (song 7 "Song" "flac" "mp3") "mp3"
  = Template.set_Basename
      (GoStrings.TrimSuffix "Artist/Album/song.flac" "mp3")
      (filenameCtx (song 7 "Song" "flac" "mp3") "flac")
  ∧ Template.Suffix (filenameCtx (song 7 "Song" "flac" "mp3") "mp3")
    = "flac"%string
  ∧ render track_title_suffix (song 7 "Song" "flac" "mp3") "mp3"
    = Some "3-Song.flac"%string
  ∧ l_files (add_audio track_title_suffix (start album_node)
                       (song 7 "Song" "flac" "mp3"))
    = <["3-Song.flac"%string :=
          {| SubFile.ID := 7;
             SubFile.Created := 0;
             SubFile.FileName := "3-Song.flac";
             SubFile.Size := Int64.mul (Int64.div (Int64.mul 60 320) 8) 1024;
             SubFile.IsVideo := false;
             SubFile.IsArt := false;
             SubFile.Lossless := false |}]>
        (l_files (start album_node))
  ∧ l_directories (add_audio track_title_suffix (start album_node)
                             (song 7 "Song" "flac" "mp3"))
    = l_directories (start album_node)
      ++ [file_dirent "3-Song.flac"; file_dirent "3-Song.flac"].
Proof.
  apply (C10_transcoded_variant_takes_the_name track_title_suffix
           (song 7 "Song" "flac" "mp3") (start album_node) "3-Song.flac").
  - discriminate.
  - discriminate.
  - apply track_title_suffix_ignores_Basename.
  - reflexivity.
Defined.

(** C10 as stated fails: the template [{{.Basename}}.{{.Suffix}}] names no
    transcoded suffix, yet it renders two names for a flac track with an mp3
    transcode, since [Basename] is the path without the suffix of the
    variant.  The listing gets one entry for each, and the original
    (lossless) entry stays in the file map beside the transcoded one. *)
Lemma C10_counterexample :
  Template.parse "{{.Basename}}.{{.Suffix}}"
  = Some [Template.Field ["Basename"%string]; Template.Text ".";
          Template.Field ["Suffix"%string]]
  ∧ forallb (λ node, negb (Template.references_TranscodedSuffix node))
            [Template.Field ["Basename"%string]; Template.Text ".";
             Template.Field ["Suffix"%string]] = true
  ∧ render basename_suffix (song 7 "Song" "flac" "mp3") "flac"
    = Some "Artist_Album_song..flac"%string
  ∧ render basename_suffix (song 7 "Song" "flac" "mp3") "mp3"
    = Some "Artist_Album_song.flac.flac"%string
  ∧ l_files (add_audio basename_suffix (start album_node)
                       (song 7 "Song" "flac" "mp3"))
      !! "Artist_Album_song..flac"%string
    = Some {| SubFile.ID := 7;
              SubFile.Created := 0;
              SubFile.FileName := "Artist_Album_song..flac";
              SubFile.Size := 1000;
              SubFile.IsVideo := false;
              SubFile.IsArt := false;
              SubFile.Lossless := true |}
  ∧ l_files (add_audio basename_suffix (start album_node)
                       (song 7 "Song" "flac" "mp3"))
      !! "Artist_Album_song.flac.flac"%string
    = Some {| SubFile.ID := 7;
              SubFile.Created := 0;
              SubFile.FileName := "Artist_Album_song.flac.flac";
              SubFile.Size := 2457600;
              SubFile.IsVideo := false;
              SubFile.IsArt := false;
              SubFile.Lossless := false |}
  ∧ l_directories (add_audio basename_suffix (start album_node)
                             (song 7 "Song" "flac" "mp3"))
    = [file_dirent "Artist_Album_song..flac";
       file_dirent "Artist_Album_song.flac.flac"].
Proof.
  split; [reflexivity|]. split; [reflexivity|].
  split; [reflexivity|]. split; [reflexivity|].
  split; [vm_compute; reflexivity|]. split; [vm_compute; reflexivity|].
  reflexivity.
Qed.

(** *** Mutating calls *)

(** C9: on every directory node and for every request, each of Create,
    Mkdir, Mknod, Remove, Rename, Link, Symlink, Setattr, Setxattr,
    Removexattr and Fsync answers with the error [EROFS] (30, "read-only file
    system") and hands back no node. *)
Theorem C9_mutations_rejected {Req Res Intr Handle : Type}
    (d : SubDir.t) (req : Req) (res : Res) (node : Node) (intr : Intr) :
  Create (Handle := Handle) d req res intr = (None, None, Some Fuse.EROFS)
  ∧ Mkdir d req intr = (None, Some Fuse.EROFS)
  ∧ Mknod d req intr = (None, Some Fuse.EROFS)
  ∧ Remove d req intr = Some Fuse.EROFS
  ∧ Rename d req node intr = Some Fuse.EROFS
  ∧ Link d req node intr = (None, Some Fuse.EROFS)
  ∧ Symlink d req intr = (None, Some Fuse.EROFS)
  ∧ Setattr d req res intr = Some Fuse.EROFS
  ∧ Setxattr d req intr = Some Fuse.EROFS
  ∧ Removexattr d req intr = Some Fuse.EROFS
  ∧ Fsync d req intr = Some Fuse.EROFS
  ∧ (∀ m : Mutation Req Res,
       serve_mutation d m intr = (None, Some Fuse.EROFS))
  ∧ Fuse.errno_value Fuse.EROFS = 30.
Proof.
  repeat split. intros m. by destruct m.
Qed.

End TreeProps.

(** ** The index refresh loop *)

Module IndexProps.

Import IndexCache Samples.

(** A failed folder list ends the loop, whatever would come next. *)
Lemma folder_list_failure_returns c rest index :
  GetMusicFolders c = None →
  cacheIndexes (c :: rest) index = (index, Returned, [EGetMusicFolders]).
Proof. intros H. cbn. by rewrite H. Qed.

(** C6 at the failing input: a first cycle fills the index, the folder list
    fails in the second, the server is back for the third.  [cacheIndexes]
    returns in the second cycle: the folder list was asked for twice, never a
    third time, and the index of the first cycle stays; whatever cycles
    follow a failed folder list, none of them is run. *)
Theorem C6_refresh_stops_after_folder_list_failure :
  cacheIndexes [healthy [abba]; folders_down; healthy [abba; beck]] ∅
  = ({[ music := [abba] ]}, Returned,
     [EGetMusicFolders; EGetIndexes 1; ESend; ESleep; EGetMusicFolders])
  ∧ attempts [EGetMusicFolders; EGetIndexes 1; ESend; ESleep; EGetMusicFolders]
    = 2%nat
  ∧ ∀ later, cacheIndexes (folders_down :: later) {[ music := [abba] ]}
             = ({[ music := [abba] ]}, Returned, [EGetMusicFolders]).
Proof.
  split; [|split].
  - vm_compute. reflexivity.
  - reflexivity.
  - intros later. by apply folder_list_failure_returns.
Qed.

End IndexProps.

(** * Further properties *)

(** ** More on the cache and [ReadAll] *)

Module CacheMore.

Import Cache Sched Samples CacheProps CacheTerms.

(** A read of a file that has a cache record whose backing file holds bytes
    returns those bytes with no error; the only call made is the [ReadFile]
    of the backing file (the stream is not opened) and the globals are
    unchanged. *)
Theorem cache_hit_serves_local_bytes env cacheSize st s rec :
  fileCache st !! SubFile.FileName s = Some rec →
  len (env_ReadFile env (cr_file rec)).1 ≠ 0%nat →
  ReadAll env cacheSize st s false
  = Done {| r_state := st;
            r_data := (env_ReadFile env (cr_file rec)).1;
            r_err := None;
            r_effects := [EReadFile (cr_file rec)] |}.
Proof.
  intros Hrec Hlen. unfold ReadAll, checkCache. rewrite Hrec.
  destruct (env_ReadFile env (cr_file rec)) as [buf err]. cbn [fst] in *.
  apply Nat.eqb_neq in Hlen. by rewrite Hlen.
Qed.

(** An instance. *)
Lemma cache_hit_witness :
  ReadAll (world (Some [Byte.x49], None) None "/tmp/subfs2") 100 cached_intro
          (intro_track 1 100) false
  = Done {| r_state := cached_intro;
            r_data := (env_ReadFile (world (Some [Byte.x49], None) None "/tmp/subfs2")
                                    "/tmp/subfs1").1;
            r_err := None;
            r_effects := [EReadFile "/tmp/subfs1"] |}.
Proof.
  apply (cache_hit_serves_local_bytes
           (world (Some [Byte.x49], None) None "/tmp/subfs2") 100 cached_intro
           (intro_track 1 100)
           {| cr_file := "/tmp/subfs1"; cr_entry := intro_track 1 100 |}).
  - reflexivity.
  - discriminate.
Defined.

(** A read panics exactly when the file has a cache record and [ReadFile]
    on its backing file returns no bytes and no error. *)
Theorem read_panics_iff env cacheSize st s intr :
  ReadAll env cacheSize st s intr = Panic
  ↔ ∃ rec, fileCache st !! SubFile.FileName s = Some rec
           ∧ len (env_ReadFile env (cr_file rec)).1 = 0%nat
           ∧ (env_ReadFile env (cr_file rec)).2 = None.
Proof.
  unfold ReadAll, checkCache.
  destruct (fileCache st !! SubFile.FileName s) as [rec|].
  - destruct (env_ReadFile env (cr_file rec)) as [buf err] eqn:Hread.
    destruct (len buf =? 0)%nat eqn:Hlen.
    + apply Nat.eqb_eq in Hlen. destruct err as [msg|].
      * split.
        -- destruct (GoStrings.Contains msg _).
           ++ destruct (fetch env s) as [[file|] eff']; [|by destruct intr].
              destruct intr; [done|].
              by destruct (tryCache env cacheSize (evict st s) s file).
           ++ by destruct intr.
        -- intros (rec' & Hrec' & _ & Herr). inversion Hrec'; subst rec'.
           rewrite Hread in Herr. done.
      * split; [|done]. intros _. exists rec. by rewrite Hread.
    + apply Nat.eqb_neq in Hlen. split; [by destruct intr|].
      intros (rec' & Hrec' & Hlen' & _). inversion Hrec'; subst rec'.
      rewrite Hread in Hlen'. done.
  - split.
    + destruct (fetch env s) as [[file|] eff']; [|by destruct intr].
      destruct intr; [done|]. by destruct (tryCache env cacheSize st s file).
    + by intros (rec & Hrec & _).
Qed.

(** A read changes the cache map at most under the name of the file read. *)
Theorem other_names_untouched env cacheSize st s intr r k :
  ReadAll env cacheSize st s intr = Done r →
  k ≠ SubFile.FileName s →
  fileCache (r_state r) !! k = fileCache st !! k.
Proof.
  intros Hread Hk.
  destruct (ReadAll_cases _ _ _ _ _ _ Hread) as (st1 & Hst1 & Hr).
  assert (fileCache st1 !! k = fileCache st !! k) as H1.
  { destruct Hst1 as [->|[_ ->]]; [done|]. cbn. by apply lookup_delete_ne. }
  destruct Hr as [->|(_ & _ & tmp & ->)]; [done|].
  cbn. by rewrite lookup_insert_ne.
Qed.

(** A read that is interrupted returns [EINTR] and no bytes, and registers
    nothing: the globals are unchanged, or a stale record of that name was
    purged. *)
Theorem interrupted_read_registers_nothing env cacheSize st s r :
  ReadAll env cacheSize st s true = Done r →
  r_err r = Some Fuse.EINTR
  ∧ r_data r = None
  ∧ (r_state r = st
     ∨ (is_Some (fileCache st !! SubFile.FileName s) ∧ r_state r = evict st s)).
Proof.
  unfold ReadAll.
  destruct (checkCache env st s) as [[[st1 lk] eff]|] eqn:Hcheck; [|done].
  assert (st1 = st ∨ (is_Some (fileCache st !! SubFile.FileName s)
                      ∧ st1 = evict st s)) as Hst1.
  { unfold checkCache in Hcheck.
    destruct (fileCache st !! SubFile.FileName s) as [cFile|];
      [|inversion Hcheck; by left].
    destruct (env_ReadFile env (cr_file cFile)) as [buf err].
    destruct (len buf =? 0)%nat; [|inversion Hcheck; by left].
    destruct err as [msg|]; [|done].
    destruct (GoStrings.Contains msg _); inversion Hcheck; subst;
      [right; by split | by left]. }
  destruct lk as [buf|].
  - intros H; inversion H; subst; done.
  - destruct (fetch env s) as [[file|] eff']; intros H; inversion H; subst; done.
Qed.

(** A file under a free name that passes the three checks is registered
    under the temporary file written. *)
Theorem fitting_file_is_registered env cacheSize st s file eff' tmpFile :
  fileCache st !! SubFile.FileName s = None →
  fetch env s = (Some file, eff') →
  cacheTotal st <= budget cacheSize →
  Int64.add (cacheTotal st) (SubFile.Size s) <= budget cacheSize →
  SubFile.Size s <= threshold →
  env_TempFile env = Some tmpFile →
  env_Write env tmpFile file = true →
  ReadAll env cacheSize st s false
  = Done {| r_state := register st s tmpFile;
            r_data := Some file;
            r_err := None;
            r_effects := eff' ++ [ETempFile; EWrite tmpFile] |}.
Proof.
  intros Hfree Hfetch Htotal Hfits Hsmall Htmp Hwrite.
  unfold ReadAll, checkCache. rewrite Hfree, Hfetch. unfold tryCache.
  destruct (Z.ltb_spec (budget cacheSize) (cacheTotal st)); [lia|].
  destruct (Z.ltb_spec (budget cacheSize)
              (Int64.add (cacheTotal st) (SubFile.Size s))); [lia|].
  destruct (Z.ltb_spec threshold (SubFile.Size s)); [lia|].
  by rewrite Htmp, Hwrite.
Qed.

(** Register, then look up: after a read that fetched a file under a free
    name, within the budget and the ceiling, and wrote it to a temporary file,
    the next read of the file, with those bytes in the temporary file, is
    answered from that file alone. *)
Theorem second_read_is_served_from_disk
    env env' cacheSize st s file eff' tmpFile err :
  fileCache st !! SubFile.FileName s = None →
  fetch env s = (Some file, eff') →
  cacheTotal st <= budget cacheSize →
  Int64.add (cacheTotal st) (SubFile.Size s) <= budget cacheSize →
  SubFile.Size s <= threshold →
  env_TempFile env = Some tmpFile →
  env_Write env tmpFile file = true →
  env_ReadFile env' tmpFile = (Some file, err) →
  file ≠ [] →
  run cacheSize
      [{| rq_file := s; rq_env := env; rq_intr := false |}] st
  = Done (register st s tmpFile)
  ∧ ReadAll env' cacheSize (register st s tmpFile) s false
    = Done {| r_state := register st s tmpFile;
              r_data := Some file;
              r_err := None;
              r_effects := [EReadFile tmpFile] |}.
Proof.
  intros Hfree Hfetch Htotal Hfits Hsmall Htmp Hwrite Hdisk Hfile. split.
  - cbn [run rq_env rq_file rq_intr].
    by rewrite (fitting_file_is_registered env cacheSize st s file eff' tmpFile).
  - unfold ReadAll, checkCache. cbn [fileCache register].
    rewrite lookup_insert_eq. cbn [cr_file]. rewrite Hdisk.
    by destruct file.
Qed.

(** When the temporary file cannot be created, or cannot be written, the
    read still returns the fetched bytes with no error, and registers
    nothing. *)
Theorem failed_temp_file_still_serves env cacheSize st s st1 eff file eff' :
  checkCache env st s = Done (st1, Miss, eff) →
  fetch env s = (Some file, eff') →
  env_TempFile env = None
  ∨ (∃ tmpFile, env_TempFile env = Some tmpFile
                ∧ env_Write env tmpFile file = false) →
  ∃ r, ReadAll env cacheSize st s false = Done r
       ∧ r_state r = st1
       ∧ r_data r = Some file
       ∧ r_err r = None.
Proof.
  intros Hmiss Hfetch Hfail. unfold ReadAll. rewrite Hmiss, Hfetch.
  destruct (tryCache env cacheSize st1 s file) as [st2 eff''] eqn:Hcache.
  eexists. split; [reflexivity|]. cbn. split; [|done].
  unfold tryCache in Hcache.
  destruct (budget cacheSize <? cacheTotal st1); [by inversion Hcache|].
  destruct (budget cacheSize <? Int64.add _ _); [by inversion Hcache|].
  destruct (threshold <? SubFile.Size s); [by inversion Hcache|].
  destruct Hfail as [Htmp|(tmp & Htmp & Hwrite)]; rewrite Htmp in Hcache.
  - by inversion Hcache.
  - rewrite Hwrite in Hcache. by inversion Hcache.
Qed.








(** *** Reads that overlap *)



(** Two reads of one uncached file that both return before either goroutine
    runs its tail: both pass the checks and both register.  The map holds
    one record of 100 bytes, the total has counted it twice. *)
Example overlapping_reads_count_twice :
  exec 100
       [Arrive (request (intro_track 1 100)
                        (world (None, None) delivers "/tmp/subfs1"));
        Arrive (request (intro_track 1 100)
                        (world (None, None) delivers "/tmp/subfs2"));
        Resume 0; Resume 0]
       init []
  = Done ({| fileCache := {[ "01 - Artist - Intro.mp3"%string :=
                               {| cr_file := "/tmp/subfs2";
                                  cr_entry := intro_track 1 100 |} ]};
             cacheTotal := 200 |}, [])
  ∧ registered_total
      {[ "01 - Artist - Intro.mp3"%string :=
           {| cr_file := "/tmp/subfs2"; cr_entry := intro_track 1 100 |} ]}
    = 100.
Proof. split; reflexivity. Qed.



(** An instance. *)
Lemma other_names_untouched_witness :
  fileCache (register cached_intro cover_5 "/tmp/subfs2")
    !! "01 - Artist - Intro.mp3"%string
  = fileCache cached_intro !! "01 - Artist - Intro.mp3"%string.
Proof.
  apply (other_names_untouched
           (world (None, None) delivers "/tmp/subfs2") 100 cached_intro
           cover_5 false
           {| r_state := register cached_intro cover_5 "/tmp/subfs2";
              r_data := Some [Byte.x49; Byte.x44; Byte.x33]; r_err := None;
              r_effects := [EStream 5; EReadStream 5; ECloseStream 5;
                            ETempFile; EWrite "/tmp/subfs2"] |}).
  - reflexivity.
  - discriminate.
Defined.

(** An instance. *)
Lemma interrupted_read_registers_nothing_witness :
  r_err {| r_state := init; r_data := None; r_err := Some Fuse.EINTR;
           r_effects := [EStream 1; EReadStream 1; ECloseStream 1] |}
  = Some Fuse.EINTR
  ∧ r_data {| r_state := init; r_data := None; r_err := Some Fuse.EINTR;
              r_effects := [EStream 1; EReadStream 1; ECloseStream 1] |}
    = None
  ∧ (r_state {| r_state := init; r_data := None; r_err := Some Fuse.EINTR;
                r_effects := [EStream 1; EReadStream 1; ECloseStream 1] |}
     = init
     ∨ (is_Some (fileCache init !! SubFile.FileName (intro_track 1 100))
        ∧ r_state {| r_state := init; r_data := None;
                     r_err := Some Fuse.EINTR;
                     r_effects := [EStream 1; EReadStream 1; ECloseStream 1] |}
          = evict init (intro_track 1 100))).
Proof.
  apply (interrupted_read_registers_nothing
           (world (None, None) delivers "/tmp/subfs1") 100 init
           (intro_track 1 100)).
  reflexivity.
Defined.

(** An instance. *)
Lemma second_read_is_served_from_disk_witness :
  run 100
      [{| rq_file := intro_track 1 100;
          rq_env := world (None, None) delivers "/tmp/subfs1";
          rq_intr := false |}] init
  = Done (register init (intro_track 1 100) "/tmp/subfs1")
  ∧ ReadAll (world (Some [Byte.x49; Byte.x44; Byte.x33], None) None "/tmp/subfs2")
            100 (register init (intro_track 1 100) "/tmp/subfs1")
            (intro_track 1 100) false
    = Done {| r_state := register init (intro_track 1 100) "/tmp/subfs1";
              r_data := Some [Byte.x49; Byte.x44; Byte.x33];
              r_err := None;
              r_effects := [EReadFile "/tmp/subfs1"] |}.
Proof.
  apply (second_read_is_served_from_disk
           (world (None, None) delivers "/tmp/subfs1")
           (world (Some [Byte.x49; Byte.x44; Byte.x33], None) None "/tmp/subfs2")
           100 init (intro_track 1 100) [Byte.x49; Byte.x44; Byte.x33]
           [EStream 1; EReadStream 1; ECloseStream 1] "/tmp/subfs1" None).
  - reflexivity.
  - reflexivity.
  - vm_compute. discriminate.
  - vm_compute. discriminate.
  - vm_compute. discriminate.
  - reflexivity.
  - reflexivity.
  - reflexivity.
  - discriminate.
Defined.

(** An instance. *)
Lemma failed_temp_file_still_serves_witness :
  ∃ r, ReadAll {| env_ReadFile := λ _, (None, None);
                  env_Stream := λ _, delivers;
                  env_TempFile := None;
                  env_Write := λ _ _, true |} 100 init (intro_track 1 100) false
       = Done r
       ∧ r_state r = init
       ∧ r_data r = Some [Byte.x49; Byte.x44; Byte.x33]
       ∧ r_err r = None.
Proof.
  apply (failed_temp_file_still_serves
           {| env_ReadFile := λ _, (None, None);
              env_Stream := λ _, delivers;
              env_TempFile := None;
              env_Write := λ _ _, true |} 100 init (intro_track 1 100) init []
           [Byte.x49; Byte.x44; Byte.x33]
           [EStream 1; EReadStream 1; ECloseStream 1]).
  - reflexivity.
  - reflexivity.
  - by left.
Defined.

End CacheMore.

(** ** More on listings *)

Module TreeMore.

Import SubDir Samples MoreSamples TreeProps TreeTerms.

(** relational fold *)
Lemma fold_left_rel {A B} (R : A → A → Prop) (f : A → B → A) (xs : list B)
    (a b : A) :
  (∀ a b x, R a b → R (f a x) (f b x)) → R a b →
  R (fold_left f xs a) (fold_left f xs b).
Proof.
  intros Hstep. revert a b. induction xs as [|x xs IH]; intros a b Hab; [done|].
  cbn. apply IH. by apply Hstep.
Qed.

Lemma over_add_dir D F name node la lb :
  over D F la lb → over D F (add_dir name node la) (add_dir name node lb).
Proof.
  intros (Hds & Hcs & Hdirs & Hfiles). repeat split; cbn.
  - by rewrite Hds.
  - done.
  - by rewrite Hdirs, insert_union_l.
  - done.
Qed.

Lemma over_add_file D F name f la lb :
  over D F la lb → over D F (add_file name f la) (add_file name f lb).
Proof.
  intros (Hds & Hcs & Hdirs & Hfiles). repeat split; cbn.
  - by rewrite Hds.
  - done.
  - done.
  - by rewrite Hfiles, insert_union_l.
Qed.

Lemma over_add_coverArt D F c la lb :
  over D F la lb → over D F (add_coverArt c la) (add_coverArt c lb).
Proof.
  intros (Hds & Hcs & Hdirs & Hfiles). repeat split; cbn; try done.
  by rewrite Hcs.
Qed.

Lemma over_add_variant D F tmpl a v la lb :
  over D F la lb → over D F (add_variant tmpl a la v) (add_variant tmpl a lb v).
Proof.
  intros H. unfold add_variant.
  destruct (String.eqb v.1 ""); [done|].
  destruct (render tmpl a v.1); [|done].
  by apply over_add_file, over_add_coverArt.
Qed.

Lemma over_list_content D F tmpl content la lb :
  over D F la lb →
  over D F (list_content tmpl content la) (list_content tmpl content lb).
Proof.
  intros H. unfold list_content.
  set (la3 := fold_left add_video _ (fold_left _ _ (fold_left _ _ la))).
  set (lb3 := fold_left add_video _ (fold_left _ _ (fold_left _ _ lb))).
  assert (over D F la3 lb3) as H3.
  { subst la3 lb3.
    apply fold_left_rel.
    { intros. by apply over_add_file, over_add_coverArt. }
    apply fold_left_rel.
    { intros. unfold add_audio. apply fold_left_rel; [|done].
      intros. by apply over_add_variant. }
    apply fold_left_rel; [|done].
    intros. by apply over_add_coverArt, over_add_dir. }
  destruct H3 as (? & Hcs & ? & ?) eqn:E. rewrite Hcs.
  apply fold_left_rel; [|done].
  intros. by apply over_add_file.
Qed.

Lemma over_root D F names la lb :
  over D F la lb →
  over D F
    (fold_left add_folder names (add_dir "All" (NewSubDir (-1) false true) la))
    (fold_left add_folder names (add_dir "All" (NewSubDir (-1) false true) lb)).
Proof.
  intros H. apply fold_left_rel; [|by apply over_add_dir].
  intros. by apply over_add_dir.
Qed.

Lemma over_folder D F d index la lb :
  over D F la lb →
  over D F (fold_left (add_artists_of d) index la)
           (fold_left (add_artists_of d) index lb).
Proof.
  intros H. apply fold_left_rel; [|done].
  intros la' lb' entry H'. unfold add_artists_of.
  destruct (_ || _); [|done].
  apply fold_left_rel; [|done]. intros. by apply over_add_dir.
Qed.

Lemma over_start d : over (dirs d) (files d) (start d) bare.
Proof.
  repeat split; cbn; by rewrite ?(left_id_L ∅ (∪)).
Qed.

(** a second pass over the maps of the first changes nothing *)
Lemma second_pass (G : Listing → Listing) d :
  (∀ D F la lb, over D F la lb → over D F (G la) (G lb)) →
  let l := G (start d) in
  G (start (loaded d l)) = l.
Proof.
  intros HG l.
  destruct (HG _ _ _ _ (over_start d)) as (Hds & Hcs & Hdirs & Hfiles).
  destruct (HG _ _ _ _ (over_start (loaded d l))) as (Hds' & Hcs' & Hdirs' & Hfiles').
  fold l in Hds, Hcs, Hdirs, Hfiles.
  cbn [dirs files loaded] in Hdirs', Hfiles'.
  destruct l as [ldirs lfiles lcs lds] eqn:El.
  destruct (G (start (loaded d _))) as [ldirs' lfiles' lcs' lds'].
  cbn in *. f_equal.
  - rewrite Hdirs', Hdirs, (assoc_L (∪)), (idemp_L (∪)). done.
  - rewrite Hfiles', Hfiles, (assoc_L (∪)), (idemp_L (∪)). done.
  - congruence.
  - congruence.
Qed.

Lemma loaded_loaded d l l' :
  loaded (loaded d l) l' = loaded d l'.
Proof. done. Qed.

Lemma add_artists_of_loaded d l :
  add_artists_of (loaded d l) = add_artists_of d.
Proof. done. Qed.

(** Listing the node a listing has left, against the same index and the same
    remote answer (and with maps enumerated in the same order), returns the
    same entries and the same error and leaves the node as it was. *)
Theorem listing_twice_is_listing_once env d d1 entries err :
  ReadDir env d = Returned d1 entries err →
  ReadDir env d1 = Returned d1 entries err.
Proof.
  unfold ReadDir.
  destruct (Root d) eqn:Hroot.
  - destruct (if (size (artistsIndex env) =? 0)%nat then indexChan env
              else Some (artistsIndex env)) as [index|]; [|done].
    intros H. inversion H; subst. cbn [Root loaded]. rewrite Hroot.
    pose proof (second_pass
                  (λ l, fold_left add_folder (map_to_list index).*1
                          (add_dir "All" (NewSubDir (-1) false true) l)) d
                  (λ D F la lb, over_root D F _ la lb)) as Hsecond.
    cbn zeta in Hsecond. rewrite Hsecond. by rewrite loaded_loaded.
  - destruct (Folder d) eqn:Hfolder.
    + intros H. inversion H; subst. cbn [Root Folder loaded].
      rewrite Hroot, Hfolder.
      pose proof (second_pass
                    (fold_left (add_artists_of d)
                               (map_to_list (artistsIndex env))) d
                    (λ D F la lb, over_folder D F d _ la lb)) as Hsecond.
      cbn zeta in Hsecond.
      rewrite add_artists_of_loaded, Hsecond. by rewrite loaded_loaded.
    + destruct (GetMusicDirectory env (ID d)) as [content|] eqn:Hget.
      * intros H. inversion H; subst. cbn [Root Folder ID loaded].
        rewrite Hroot, Hfolder, Hget.
        pose proof (second_pass (list_content (filenameTemplate env) content) d
                      (λ D F la lb, over_list_content D F _ _ la lb)) as Hsecond.
        cbn zeta in Hsecond. rewrite Hsecond. by rewrite loaded_loaded.
      * intros H. inversion H; subst. by rewrite Hroot, Hfolder, Hget.
Qed.


(** entries resolve *)
Lemma resolvable_add_dir name node l :
  resolvable l → resolvable (add_dir name node l).
Proof.
  intros H e. cbn [l_directories l_dirs l_files add_dir]. intros He.
  apply elem_of_app in He as [He|He].
  - specialize (H e He). destruct (Fuse.Type_ e); [|done].
    apply lookup_insert_is_Some'. by right.
  - apply list_elem_of_singleton in He as ->. cbn.
    apply lookup_insert_is_Some'. by left.
Qed.

Lemma resolvable_add_file name f l :
  SubFile.FileName f = name →
  resolvable l → resolvable (add_file name f l).
Proof.
  intros Hname H e. cbn [l_directories l_dirs l_files add_file]. intros He.
  apply elem_of_app in He as [He|He].
  - specialize (H e He). destruct (Fuse.Type_ e); [done|].
    destruct H as (f' & Hf' & Hname').
    destruct (decide (Fuse.Name e = name)) as [Heq|Hne].
    + exists f. rewrite Heq, lookup_insert_eq. by rewrite Hname.
    + exists f'. by rewrite lookup_insert_ne.
  - apply list_elem_of_singleton in He as ->. cbn.
    exists f. by rewrite lookup_insert_eq.
Qed.

Lemma resolvable_add_coverArt c l :
  resolvable l → resolvable (add_coverArt c l).
Proof. done. Qed.

Lemma resolvable_add_variant tmpl a l v :
  resolvable l → resolvable (add_variant tmpl a l v).
Proof.
  intros H. unfold add_variant.
  destruct (String.eqb v.1 ""); [done|].
  destruct (render tmpl a v.1); [|done].
  by apply resolvable_add_file.
Qed.

Lemma resolvable_list_content tmpl content l :
  resolvable l → resolvable (list_content tmpl content l).
Proof.
  intros H. unfold list_content.
  apply fold_left_inv. { intros. by apply resolvable_add_file. }
  apply fold_left_inv. { intros. by apply resolvable_add_file. }
  apply fold_left_inv.
  { intros. unfold add_audio. apply fold_left_inv; [|done].
    intros. by apply resolvable_add_variant. }
  apply fold_left_inv; [|done].
  intros l' dir _ Hl'. by apply (resolvable_add_dir _ _ l').
Qed.

Lemma resolvable_folder d index l :
  resolvable l → resolvable (fold_left (add_artists_of d) index l).
Proof.
  intros H. apply fold_left_inv; [|done].
  intros l' entry _ Hl'. unfold add_artists_of.
  destruct (_ || _); [|done].
  apply fold_left_inv; [|done]. intros. by apply resolvable_add_dir.
Qed.

Lemma resolvable_root names l :
  resolvable l →
  resolvable (fold_left add_folder names
                (add_dir "All" (NewSubDir (-1) false true) l)).
Proof.
  intros H. apply fold_left_inv; [|by apply resolvable_add_dir].
  intros. by apply resolvable_add_dir.
Qed.

Lemma resolvable_start d : resolvable (start d).
Proof. intros e He. cbn in He. by apply elem_of_nil in He. Qed.

(** What a listing that returns entries has done. *)
Lemma ReadDir_entries env d d1 entries err :
  ReadDir env d = Returned d1 (Some entries) err →
  ∃ l, d1 = loaded d l ∧ entries = l_directories l ∧ err = None
       ∧ resolvable l.
Proof.
  unfold ReadDir. destruct (Root d).
  - destruct (if (size (artistsIndex env) =? 0)%nat then indexChan env
              else Some (artistsIndex env)) as [index|]; [|done].
    intros H. inversion H; subst. eexists. do 3 (split; [reflexivity|]).
    apply resolvable_root, resolvable_start.
  - destruct (Folder d).
    + intros H. inversion H; subst. eexists. do 3 (split; [reflexivity|]).
      apply resolvable_folder, resolvable_start.
    + destruct (GetMusicDirectory env (ID d)) as [content|]; [|done].
      intros H. inversion H; subst. eexists. do 3 (split; [reflexivity|]).
      apply resolvable_list_content, resolvable_start.
Qed.

(** A node that holds an entry answers a lookup from its maps, without a
    new listing: the directory of that name if there is one, the file of
    that name otherwise. *)
Lemma Lookup_loaded env d name :
  is_Some (dirs d !! name) ∨ is_Some (files d !! name) →
  Lookup env d name
  = match dirs d !! name with
    | Some dir => Returned d (Some (DirNode dir)) None
    | None =>
        match files d !! name with
        | Some f => Returned d (Some (FileNode f)) None
        | None => Returned d None (Some Fuse.ENOENT)
        end
    end.
Proof.
  intros Hany. unfold Lookup.
  assert ((size (dirs d) =? 0)%nat && (size (files d) =? 0)%nat = false)
    as Hloaded.
  { destruct Hany as [Hd|Hf].
    - apply map_size_ne_0_lookup_2 in Hd. apply Nat.eqb_neq in Hd.
      by rewrite Hd.
    - apply map_size_ne_0_lookup_2 in Hf. apply Nat.eqb_neq in Hf.
      rewrite Hf. by destruct (size (dirs d) =? 0)%nat. }
  by rewrite Hloaded.
Qed.

(** Every entry a listing returns can be looked up on the node the listing
    has left, without a new listing (the node comes back as it is).  A
    directory entry gives the directory node that the map of directories
    holds under the name.  A file entry gives the file node that the map of
    files holds under the name, a node of that very file name, unless a
    directory of the node carries the name: the lookup then gives that
    directory. *)
Theorem listed_names_resolve env env' d d1 entries err e :
  ReadDir env d = Returned d1 (Some entries) err →
  e ∈ entries →
  (Fuse.Type_ e = Fuse.DT_Dir →
   ∃ dir, dirs d1 !! Fuse.Name e = Some dir
          ∧ Lookup env' d1 (Fuse.Name e) = Returned d1 (Some (DirNode dir)) None)
  ∧ (Fuse.Type_ e = Fuse.DT_File →
     ∃ f, files d1 !! Fuse.Name e = Some f
          ∧ SubFile.FileName f = Fuse.Name e
          ∧ Lookup env' d1 (Fuse.Name e)
            = match dirs d1 !! Fuse.Name e with
              | Some dir => Returned d1 (Some (DirNode dir)) None
              | None => Returned d1 (Some (FileNode f)) None
              end).
Proof.
  intros Hread He.
  destruct (ReadDir_entries _ _ _ _ _ Hread) as (l & -> & -> & _ & Hres).
  specialize (Hres e He). cbn [dirs files loaded]. split.
  - intros Ht. rewrite Ht in Hres. destruct Hres as [dir Hdir].
    exists dir. split; [done|].
    rewrite Lookup_loaded; cbn [dirs files loaded]; [by rewrite Hdir|].
    left. by exists dir.
  - intros Ht. rewrite Ht in Hres. destruct Hres as (f & Hf & Hname).
    exists f. split; [done|]. split; [done|].
    rewrite Lookup_loaded; cbn [dirs files loaded]; [by rewrite Hf|].
    right. by exists f.
Qed.


(** single path segments *)
Lemma has_separator_app s1 s2 :
  has_separator (s1 +:+ s2) = has_separator s1 || has_separator s2.
Proof.
  induction s1 as [|c s1 IH]; [done|].
  simpl. rewrite IH. by destruct (is_separator c).
Qed.

Lemma sanitize_segment s : has_separator (sanitize s) = false.
Proof.
  rewrite sanitize_spec. induction s as [|c s IH]; [done|].
  cbn. rewrite IH. unfold underscore_separators, is_separator.
  destruct (Ascii.eqb c "/") eqn:E1; [done|].
  destruct (Ascii.eqb c "\") eqn:E2; [done|].
  cbn. by rewrite E1, E2.
Qed.

Lemma digits_segment u :
  has_separator (NilEmpty.string_of_uint u) = false.
Proof. induction u; simpl; auto. Qed.

Lemma string_of_uint_segment u :
  has_separator (NilZero.string_of_uint u) = false.
Proof. destruct u; try done; apply (digits_segment (_ u)). Qed.

Lemma FormatInt_segment z : has_separator (GoStrings.FormatInt z) = false.
Proof.
  unfold GoStrings.FormatInt, NilZero.string_of_int.
  destruct (Z.to_int z); simpl; apply string_of_uint_segment.
Qed.

Lemma coverArtFormat_segment c : has_separator (coverArtFormat c) = false.
Proof.
  unfold coverArtFormat. by rewrite has_separator_app, FormatInt_segment.
Qed.

Lemma render_segment tmpl a suffix fn :
  render tmpl a suffix = Some fn → has_separator fn = false.
Proof.
  unfold render. destruct (tmpl _); [|done].
  intros H. inversion H. apply sanitize_segment.
Qed.

Lemma segments_add_file n f l :
  has_separator n = false → segments l → segments (add_file n f l).
Proof.
  intros Hn H e. cbn [l_directories add_file]. intros He.
  apply elem_of_app in He as [He|He]; [by apply H|].
  by apply list_elem_of_singleton in He as ->.
Qed.

Lemma segments_add_dir n node l :
  has_separator n = false → segments l → segments (add_dir n node l).
Proof.
  intros Hn H e. cbn [l_directories add_dir]. intros He.
  apply elem_of_app in He as [He|He]; [by apply H|].
  by apply list_elem_of_singleton in He as ->.
Qed.

Lemma segments_add_variant tmpl a l v :
  segments l → segments (add_variant tmpl a l v).
Proof.
  intros H. unfold add_variant.
  destruct (String.eqb v.1 ""); [done|].
  destruct (render tmpl a v.1) as [fn|] eqn:Hrender; [|done].
  apply segments_add_file; [by eapply render_segment|done].
Qed.

Lemma segments_list_content tmpl content l :
  segments l → segments (list_content tmpl content l).
Proof.
  intros H. unfold list_content.
  apply fold_left_inv.
  { intros l' c _ Hl'. apply segments_add_file; [|done].
    apply coverArtFormat_segment. }
  apply fold_left_inv.
  { intros l' v _ Hl'. apply segments_add_file; [|done]. apply sanitize_segment. }
  apply fold_left_inv.
  { intros l' a _ Hl'. unfold add_audio. apply fold_left_inv; [|done].
    intros. by apply segments_add_variant. }
  apply fold_left_inv; [|done].
  intros l' dir _ Hl'.
  apply (segments_add_dir _ _ l'); [apply sanitize_segment|done].
Qed.

(** No entry of the listing of an ordinary node has a [/] or a backslash in
    its name. *)
Theorem ordinary_entries_are_segments env d d1 entries err e :
  Root d = false →
  Folder d = false →
  ReadDir env d = Returned d1 (Some entries) err →
  e ∈ entries →
  has_separator (Fuse.Name e) = false.
Proof.
  intros Hroot Hfolder. unfold ReadDir. rewrite Hroot, Hfolder.
  destruct (GetMusicDirectory env (ID d)) as [content|]; [|done].
  intros H He. inversion H; subst.
  eapply segments_list_content; [|done].
  intros e' He'. cbn in He'. by apply elem_of_nil in He'.
Qed.


(** cover art *)
Lemma FormatInt_inj z1 z2 :
  GoStrings.FormatInt z1 = GoStrings.FormatInt z2 → z1 = z2.
Proof.
  unfold GoStrings.FormatInt. intros H.
  apply DecimalZ.to_int_inj.
  assert (∀ z, Z.to_int z ≠ Decimal.Pos Decimal.Nil
               ∧ Z.to_int z ≠ Decimal.Neg Decimal.Nil) as Hnil.
  { intros [|p|p]; cbn; split; try discriminate;
      intros [= E]; by apply (DecimalPos.Unsigned.to_uint_nonnil p). }
  apply (f_equal NilZero.int_of_string) in H.
  rewrite !NilZero.isi in H by apply Hnil. congruence.
Qed.

Lemma length_append (s t : string) :
  String.length (s +:+ t) = (String.length s + String.length t)%nat.
Proof. induction s as [|c s IH]; simpl; [done|by rewrite IH]. Qed.

Lemma append_inv_r (s1 s2 t : string) : s1 +:+ t = s2 +:+ t → s1 = s2.
Proof.
  intros H.
  assert (String.length s1 = String.length s2) as Hlen.
  { apply (f_equal String.length) in H. rewrite !length_append in H. lia. }
  revert s2 H Hlen. induction s1 as [|c s1 IH]; intros [|c2 s2] H Hlen;
    try done.
  simpl in H. inversion H; subst. f_equal. apply IH; [done|].
  simpl in Hlen. lia.
Qed.

Lemma coverArtFormat_inj c1 c2 :
  coverArtFormat c1 = coverArtFormat c2 → c1 = c2.
Proof.
  unfold coverArtFormat. intros H. by apply FormatInt_inj, (append_inv_r _ _ ".jpg").
Qed.

Lemma fold_left_reaches {A B} (P : A → Prop) (f : A → B → A) (xs : list B)
    (a : A) (x : B) :
  x ∈ xs →
  (∀ a y, P a → P (f a y)) →
  (∀ a, P (f a x)) →
  P (fold_left f xs a).
Proof.
  intros Hx Hkeep Hput. revert a.
  induction xs as [|y xs IH]; intros a; [by apply elem_of_nil in Hx|].
  cbn. apply elem_of_cons in Hx as [<-|Hx].
  - apply fold_left_inv; [|apply Hput]. intros. by apply Hkeep.
  - by apply IH.
Qed.

Lemma is_listed_emits tmpl a :
  is_listed tmpl a = true ↔ ∃ n, renders tmpl a n.
Proof.
  unfold is_listed, renders, emits. rewrite existsb_exists. split.
  - intros (v & Hv & Hb). apply andb_true_iff in Hb as [Hne Hsome].
    apply bool_decide_eq_true in Hsome as [n Hn].
    exists n, v. split; [by apply list_elem_of_In|]. split; [|done].
    apply negb_true_iff in Hne. by apply String.eqb_neq.
  - intros (n & v & Hv & Hne & Hn). exists v.
    split; [by apply list_elem_of_In|]. apply andb_true_iff. split.
    + apply negb_true_iff. by apply String.eqb_neq.
    + apply bool_decide_eq_true. by exists n.
Qed.

Lemma collected_add_variant c tmpl a l v :
  c ∈ l_coverArt l → c ∈ l_coverArt (add_variant tmpl a l v).
Proof.
  intros H. unfold add_variant.
  destruct (String.eqb v.1 ""); [done|].
  destruct (render tmpl a v.1); [|done].
  cbn. set_solver.
Qed.

Lemma collected_add_variant_emits tmpl a l v n :
  emits tmpl a v n → Audio.CoverArt a ∈ l_coverArt (add_variant tmpl a l v).
Proof.
  intros [Hne Hrender]. unfold add_variant.
  apply String.eqb_neq in Hne. rewrite Hne, Hrender. cbn. set_solver.
Qed.

Lemma collected_add_audio c tmpl l a :
  c ∈ l_coverArt l → c ∈ l_coverArt (add_audio tmpl l a).
Proof.
  intros H. unfold add_audio.
  apply (fold_left_inv (λ l, c ∈ l_coverArt l)); [|done].
  intros. by apply collected_add_variant.
Qed.

Lemma collected_add_audio_listed tmpl l a :
  is_listed tmpl a = true → Audio.CoverArt a ∈ l_coverArt (add_audio tmpl l a).
Proof.
  intros Hl. apply is_listed_emits in Hl as (n & v & Hv & Hemits).
  unfold add_audio, transcodes in *. cbn [fold_left].
  apply elem_of_cons in Hv as [->|Hv].
  - by eapply collected_add_variant, collected_add_variant_emits.
  - apply list_elem_of_singleton in Hv as ->.
    by eapply collected_add_variant_emits.
Qed.

Lemma add_audio_not_listed tmpl l a :
  is_listed tmpl a = false → add_audio tmpl l a = l.
Proof.
  unfold is_listed, add_audio, transcodes. cbn [existsb fold_left].
  intros H. apply orb_false_iff in H as [H1 H2].
  apply orb_false_iff in H2 as [H2 _].
  assert (∀ l v, negb (String.eqb v.1 "")
                 && bool_decide (is_Some (render tmpl a v.1)) = false
                 → add_variant tmpl a l v = l) as Hskip.
  { intros l' v Hv. unfold add_variant.
    destruct (String.eqb v.1 ""); [done|].
    destruct (render tmpl a v.1); [|done].
    exfalso. rewrite bool_decide_eq_true_2 in Hv by (by eexists). done. }
  by rewrite !Hskip.
Qed.

(** The set collected by the first three loops. *)
Lemma collected_iff_referenced tmpl content l c :
  l_coverArt l = ∅ →
  c ∈ l_coverArt
        (fold_left add_video (Content.Video content)
           (fold_left (add_audio tmpl) (Content.Audio content)
              (fold_left add_directory (Content.Directories content) l)))
  ↔ referenced tmpl content c.
Proof.
  intros Hempty. split.
  - revert c.
    apply (fold_left_inv (λ l, ∀ c, c ∈ l_coverArt l → referenced tmpl content c)).
    { intros l' v Hv Hl' c. cbn. intros Hc.
      apply elem_of_union in Hc as [Hc|Hc]; [|by apply Hl'].
      apply elem_of_singleton in Hc as ->. right; right. by exists v. }
    apply (fold_left_inv (λ l, ∀ c, c ∈ l_coverArt l → referenced tmpl content c)).
    { intros l' a Ha Hl' c.
      destruct (is_listed tmpl a) eqn:Hlisted;
        [|rewrite add_audio_not_listed by done; apply Hl'].
      unfold add_audio.
      apply (fold_left_inv
               (λ l, ∀ c, c ∈ l_coverArt l → referenced tmpl content c));
        [|done].
      intros l'' v _ Hl'' c'. unfold add_variant.
      destruct (String.eqb v.1 ""); [by apply Hl''|].
      destruct (render tmpl a v.1); [|by apply Hl''].
      cbn. intros Hc. apply elem_of_union in Hc as [Hc|Hc]; [|by apply Hl''].
      apply elem_of_singleton in Hc as ->. right; left. by exists a. }
    apply (fold_left_inv (λ l, ∀ c, c ∈ l_coverArt l → referenced tmpl content c)).
    { intros l' dir Hdir Hl' c. cbn. intros Hc.
      apply elem_of_union in Hc as [Hc|Hc]; [|by apply Hl'].
      apply elem_of_singleton in Hc as ->. left. by exists dir. }
    intros c. rewrite Hempty. set_solver.
  - intros [(dir & Hdir & <-)|[(a & Ha & Hl & <-)|(v & Hv & <-)]].
    + apply (fold_left_inv (λ l, Directory.CoverArt dir ∈ l_coverArt l)).
      { intros. cbn. set_solver. }
      apply (fold_left_inv (λ l, Directory.CoverArt dir ∈ l_coverArt l)).
      { intros. by apply collected_add_audio. }
      apply (fold_left_reaches (λ l, Directory.CoverArt dir ∈ l_coverArt l)
               _ _ _ dir Hdir).
      * intros. cbn. set_solver.
      * intros. cbn. set_solver.
    + apply (fold_left_inv (λ l, Audio.CoverArt a ∈ l_coverArt l)).
      { intros. cbn. set_solver. }
      apply (fold_left_reaches (λ l, Audio.CoverArt a ∈ l_coverArt l)
               _ _ _ a Ha).
      * intros. by apply collected_add_audio.
      * intros. by apply collected_add_audio_listed.
    + apply (fold_left_reaches (λ l, Video.CoverArt v ∈ l_coverArt l)
               _ _ _ v Hv).
      * intros. cbn. set_solver.
      * intros. cbn. set_solver.
Qed.

Lemma cover_loop_entries cs l :
  l_directories (fold_left add_cover cs l)
  = l_directories l ++ (file_dirent ∘ coverArtFormat <$> cs).
Proof.
  revert l. induction cs as [|c cs IH]; intros l; cbn [fold_left fmap list_fmap].
  - by rewrite app_nil_r.
  - rewrite IH. cbn [l_directories add_cover add_file].
    by rewrite <- app_assoc.
Qed.

Lemma cover_loop_lookup cs l c :
  c ∈ cs →
  l_files (fold_left add_cover cs l) !! coverArtFormat c = Some (cover_file c).
Proof.
  revert l. induction cs as [|c' cs IH]; intros l Hc;
    [by apply elem_of_nil in Hc|].
  cbn [fold_left]. destruct (decide (c ∈ cs)) as [Hin|Hout]; [by apply IH|].
  apply elem_of_cons in Hc as [->|Hc]; [|done].
  rewrite cover_loop_other.
  - cbn. apply lookup_insert_eq.
  - apply Forall_forall. intros c'' Hc'' Heq.
    apply coverArtFormat_inj in Heq. by subst.
Qed.

(** The listing of an ordinary node ends with the cover art: one entry
    [<id>.jpg] for each identifier that a directory, a listed audio record
    or a video of the answer refers to, under pairwise different names, each
    bound in the file map to the art node of that identifier. *)
Theorem referenced_cover_art_listed_once env d content :
  Root d = false →
  Folder d = false →
  GetMusicDirectory env (ID d) = Some content →
  ∃ d1 before covers,
    ReadDir env d
    = Returned d1 (Some (before ++ (file_dirent ∘ coverArtFormat <$> covers))) None
    ∧ NoDup (coverArtFormat <$> covers)
    ∧ (∀ c, c ∈ covers ↔ referenced (filenameTemplate env) content c)
    ∧ (∀ c, c ∈ covers → files d1 !! coverArtFormat c = Some (cover_file c)).
Proof.
  intros Hroot Hfolder Hget. unfold ReadDir. rewrite Hroot, Hfolder, Hget.
  unfold list_content.
  set (l3 := fold_left add_video _ _).
  exists (loaded d (fold_left add_cover (elements (l_coverArt l3)) l3)),
         (l_directories l3), (elements (l_coverArt l3)).
  split; [by rewrite cover_loop_entries|]. split; [|split].
  - apply NoDup_fmap_2; [|apply NoDup_elements].
    intros c1 c2. apply coverArtFormat_inj.
  - intros c. rewrite elem_of_elements. subst l3.
    by apply collected_iff_referenced.
  - intros c Hc. cbn [files loaded]. by apply cover_loop_lookup.
Qed.


(** music folder nodes *)
Lemma artist_loop as_ l :
  let l' := fold_left add_artist as_ l in
  l_directories l'
  = l_directories l ++ (dir_dirent ∘ IndexArtist.Name <$> as_)
  ∧ l_files l' = l_files l
  ∧ (∀ seen, artists_open seen l → artists_open (seen ++ as_) l').
Proof.
  revert l. induction as_ as [|a as_ IH]; intros l l'.
  - subst l'. cbn. rewrite !app_nil_r. split; [done|]. split; [done|].
    intros seen. by rewrite app_nil_r.
  - subst l'. cbn [fold_left].
    destruct (IH (add_artist l a)) as (Hds & Hfiles & Hopen).
    split; [|split].
    + rewrite Hds. cbn [l_directories add_artist add_dir fmap list_fmap].
      by rewrite <- app_assoc.
    + by rewrite Hfiles.
    + intros seen Hseen.
      replace (seen ++ a :: as_) with ((seen ++ [a]) ++ as_)
        by (by rewrite <- app_assoc).
      apply Hopen. intros a' Ha'. cbn [l_dirs add_artist add_dir].
      destruct (decide (IndexArtist.Name a = IndexArtist.Name a')) as [Heq|Hne].
      * exists (IndexArtist.ID a). rewrite Heq. apply lookup_insert_eq.
      * rewrite lookup_insert_ne by done.
        apply elem_of_app in Ha' as [Ha'|Ha']; [by apply Hseen|].
        apply list_elem_of_singleton in Ha'. by subst.
Qed.

Lemma folder_loop d index l :
  let l' := fold_left (add_artists_of d) index l in
  l_directories l'
  = l_directories l ++ (dir_dirent ∘ IndexArtist.Name <$> artists_under d index)
  ∧ l_files l' = l_files l
  ∧ (∀ seen, artists_open seen l →
             artists_open (seen ++ artists_under d index) l').
Proof.
  revert l. induction index as [|entry index IH]; intros l l'.
  - subst l'. cbn. rewrite !app_nil_r. split; [done|]. split; [done|].
    intros seen. by rewrite app_nil_r.
  - subst l'. cbn [fold_left artists_under flat_map].
    destruct (IH (add_artists_of d l entry)) as (Hds & Hfiles & Hopen).
    fold (artists_under d index) in *.
    unfold add_artists_of in *.
    destruct ((ID d =? MusicFolder.ID entry.1) || (ID d =? -1)).
    + destruct (artist_loop entry.2 l) as (Hds' & Hfiles' & Hopen').
      split; [|split].
      * rewrite Hds, Hds', fmap_app. by rewrite <- app_assoc.
      * by rewrite Hfiles, Hfiles'.
      * intros seen Hseen. rewrite app_assoc. by apply Hopen, Hopen'.
    + split; [done|]. split; [done|]. intros seen Hseen. by apply Hopen.
Qed.

(** A music folder node lists one directory per artist of the folders of its
    identifier (of all folders for the node [-1]), adds no file, and binds
    the name of each artist to an unloaded ordinary node. *)
Theorem folder_node_lists_its_artists env d :
  Root d = false →
  Folder d = true →
  ∃ d1,
    ReadDir env d
    = Returned d1
        (Some (dir_dirent ∘ IndexArtist.Name
               <$> artists_under d (map_to_list (artistsIndex env))))
        None
    ∧ files d1 = files d
    ∧ ∀ a, a ∈ artists_under d (map_to_list (artistsIndex env)) →
           ∃ id, dirs d1 !! IndexArtist.Name a = Some (NewSubDir id false false).
Proof.
  intros Hroot Hfolder. unfold ReadDir. rewrite Hroot, Hfolder.
  destruct (folder_loop d (map_to_list (artistsIndex env)) (start d))
    as (Hds & Hfiles & Hopen).
  eexists. split; [|split].
  - by rewrite Hds.
  - done.
  - intros a Ha. cbn [dirs loaded]. apply (Hopen []); [|done].
    intros a' Ha'. by apply elem_of_nil in Ha'.
Qed.

(** the root node *)
Lemma folder_entries names l :
  l_directories (fold_left add_folder names l)
  = l_directories l ++ (dir_dirent ∘ MusicFolder.Name <$> names).
Proof.
  revert l. induction names as [|f names IH]; intros l; cbn [fold_left].
  - by rewrite app_nil_r.
  - rewrite IH. cbn [l_directories add_folder add_dir fmap list_fmap].
    by rewrite <- app_assoc.
Qed.

(** The root listing waits for ever exactly when the index is empty and
    nothing arrives on [indexChan]; when it returns, it returns no error and
    the entry "All" followed by one directory per folder of the index it
    read. *)
Theorem root_lists_all_and_folders env d :
  Root d = true →
  (ReadDir env d = Blocked ↔ artistsIndex env = ∅ ∧ indexChan env = None)
  ∧ ∀ d1 entries err,
      ReadDir env d = Returned d1 entries err →
      ∃ index,
        (artistsIndex env ≠ ∅ ∧ index = artistsIndex env
         ∨ artistsIndex env = ∅ ∧ indexChan env = Some index)
        ∧ entries
          = Some (dir_dirent "All"
                  :: (dir_dirent ∘ MusicFolder.Name <$> (map_to_list index).*1))
        ∧ err = None.
Proof.
  intros Hroot. unfold ReadDir. rewrite Hroot.
  destruct (size (artistsIndex env) =? 0)%nat eqn:Hsize.
  - apply Nat.eqb_eq, map_size_empty_iff in Hsize.
    destruct (indexChan env) as [index|].
    + split; [split; [done|by intros [_ ?]]|].
      intros d1 entries err H. inversion H; subst. exists index.
      split; [by right|]. split; [|done]. by rewrite folder_entries.
    + split; [done|]. done.
  - apply Nat.eqb_neq in Hsize. rewrite map_size_empty_iff in Hsize.
    split; [split; [done|by intros [? _]]|].
    intros d1 entries err H. inversion H; subst. exists (artistsIndex env).
    split; [by left|]. split; [|done]. by rewrite folder_entries.
Qed.

(** records that are not listed *)
Lemma fold_left_filter {A B} (p : B → bool) (f : A → B → A) (xs : list B)
    (a : A) :
  (∀ a x, p x = false → f a x = a) →
  fold_left f (List.filter p xs) a = fold_left f xs a.
Proof.
  intros Hskip. revert a. induction xs as [|x xs IH]; intros a; [done|].
  cbn. destruct (p x) eqn:Hp; cbn.
  - apply IH.
  - by rewrite Hskip.
Qed.

(** Audio records that are not listed (no suffix at all, or the template
    fails on them) leave no trace: the listing is the listing of the answer
    without them. *)
Theorem unlisted_records_leave_no_trace env env' d content :
  Root d = false →
  Folder d = false →
  filenameTemplate env' = filenameTemplate env →
  GetMusicDirectory env (ID d) = Some content →
  GetMusicDirectory env' (ID d)
  = Some (only_listed (filenameTemplate env) content) →
  ReadDir env' d = ReadDir env d.
Proof.
  intros Hroot Hfolder Htmpl Hget Hget'. unfold ReadDir.
  rewrite Hroot, Hfolder, Hget, Hget', Htmpl.
  unfold list_content, only_listed. cbn [Content.Directories Content.Audio Content.Video].
  rewrite fold_left_filter; [done|].
  intros. by apply add_audio_not_listed.
Qed.

(** sizes *)
(** A variant of unknown size is listed as lossy with 40960 bytes per second
    of duration (for durations up to [2 ^ 47]). *)
Theorem unknown_size_is_estimated a suffix fn :
  0 <= Audio.DurationRaw a <= 2 ^ 47 →
  SubFile.Size (audio_file a (suffix, 0) fn) = 40960 * Audio.DurationRaw a
  ∧ SubFile.Lossless (audio_file a (suffix, 0) fn) = false.
Proof.
  intros Hd. split; [|done]. cbn. unfold estimate, Int64.mul, Int64.div.
  assert (∀ z, - 2 ^ 63 <= z <= 2 ^ 63 - 1 → Int64.wrap z = z) as Hwrap.
  { intros z Hz. unfold Int64.wrap. rewrite Z.mod_small; lia. }
  rewrite (Hwrap (Audio.DurationRaw a * 320)) by lia.
  replace (Audio.DurationRaw a * 320) with (Audio.DurationRaw a * 40 * 8) by lia.
  rewrite Z.quot_mul by lia.
  rewrite (Hwrap (Audio.DurationRaw a * 40)) by lia.
  rewrite Hwrap by lia. lia.
Qed.


(** An instance. *)
Lemma listing_twice_is_listing_once_witness :
  ReadDir (serving track_title_suffix two_songs)
          (loaded album_node
             (list_content track_title_suffix two_songs (start album_node)))
  = Returned
      (loaded album_node
         (list_content track_title_suffix two_songs (start album_node)))
      (Some [file_dirent "3-Song.mp3"; file_dirent "3-Song.mp3";
             file_dirent "5.jpg"])
      None.
Proof.
  apply (listing_twice_is_listing_once
           (serving track_title_suffix two_songs) album_node).
  apply list_album.
Defined.

(** An instance: the cover art entry of the album of two songs. *)
Lemma listed_names_resolve_witness :
  (Fuse.Type_ (file_dirent "5.jpg") = Fuse.DT_Dir →
   ∃ dir,
     dirs (loaded album_node
             (list_content track_title_suffix two_songs (start album_node)))
       !! Fuse.Name (file_dirent "5.jpg") = Some dir
     ∧ Lookup (serving track_title_suffix (album []))
              (loaded album_node
                 (list_content track_title_suffix two_songs (start album_node)))
              (Fuse.Name (file_dirent "5.jpg"))
       = Returned
           (loaded album_node
              (list_content track_title_suffix two_songs (start album_node)))
           (Some (DirNode dir)) None)
  ∧ (Fuse.Type_ (file_dirent "5.jpg") = Fuse.DT_File →
     ∃ f,
       files (loaded album_node
                (list_content track_title_suffix two_songs (start album_node)))
         !! Fuse.Name (file_dirent "5.jpg") = Some f
       ∧ SubFile.FileName f = Fuse.Name (file_dirent "5.jpg")
       ∧ Lookup (serving track_title_suffix (album []))
                (loaded album_node
                   (list_content track_title_suffix two_songs
                      (start album_node)))
                (Fuse.Name (file_dirent "5.jpg"))
         = match
             dirs (loaded album_node
                     (list_content track_title_suffix two_songs
                        (start album_node)))
               !! Fuse.Name (file_dirent "5.jpg")
           with
           | Some dir =>
               Returned
                 (loaded album_node
                    (list_content track_title_suffix two_songs
                       (start album_node)))
                 (Some (DirNode dir)) None
           | None =>
               Returned
                 (loaded album_node
                    (list_content track_title_suffix two_songs
                       (start album_node)))
                 (Some (FileNode f)) None
           end).
Proof.
  apply (listed_names_resolve
           (serving track_title_suffix two_songs)
           (serving track_title_suffix (album [])) album_node _
           [file_dirent "3-Song.mp3"; file_dirent "3-Song.mp3";
            file_dirent "5.jpg"] None).
  - apply list_album.
  - by do 2 right; left.
Defined.

(** An instance. *)
Lemma ordinary_entries_are_segments_witness :
  has_separator (Fuse.Name (file_dirent "3-A_B.mp3")) = false.
Proof.
  apply (ordinary_entries_are_segments
           (serving track_title_suffix (album [song 7 "A/B" "mp3" ""]))
           album_node
           (loaded album_node
              (list_content track_title_suffix (album [song 7 "A/B" "mp3" ""])
                            (start album_node)))
           [file_dirent "3-A_B.mp3"; file_dirent "5.jpg"] None).
  - reflexivity.
  - reflexivity.
  - vm_compute. reflexivity.
  - by left.
Defined.

(** An instance. *)
Lemma referenced_cover_art_listed_once_witness :
  ∃ d1 before covers,
    ReadDir (serving track_title_suffix two_songs) album_node
    = Returned d1 (Some (before ++ (file_dirent ∘ coverArtFormat <$> covers))) None
    ∧ NoDup (coverArtFormat <$> covers)
    ∧ (∀ c, c ∈ covers ↔ referenced track_title_suffix two_songs c)
    ∧ (∀ c, c ∈ covers → files d1 !! coverArtFormat c = Some (cover_file c)).
Proof.
  apply (referenced_cover_art_listed_once
           (serving track_title_suffix two_songs) album_node two_songs).
  - reflexivity.
  - reflexivity.
  - reflexivity.
Defined.

(** An instance. *)
Lemma folder_node_lists_its_artists_witness :
  ∃ d1,
    ReadDir (indexed one_folder) (NewSubDir (-1) false true)
    = Returned d1
        (Some (dir_dirent ∘ IndexArtist.Name
               <$> artists_under (NewSubDir (-1) false true)
                                 (map_to_list one_folder)))
        None
    ∧ files d1 = files (NewSubDir (-1) false true)
    ∧ ∀ a, a ∈ artists_under (NewSubDir (-1) false true)
                             (map_to_list one_folder) →
           ∃ id, dirs d1 !! IndexArtist.Name a = Some (NewSubDir id false false).
Proof.
  apply (folder_node_lists_its_artists
           (indexed one_folder) (NewSubDir (-1) false true)).
  - reflexivity.
  - reflexivity.
Defined.

(** An instance. *)
Lemma root_lists_all_and_folders_witness :
  (ReadDir (indexed one_folder) (NewSubDir (-1) true false) = Blocked
   ↔ artistsIndex (indexed one_folder) = ∅
     ∧ indexChan (indexed one_folder) = None)
  ∧ ∀ d1 entries err,
      ReadDir (indexed one_folder) (NewSubDir (-1) true false)
      = Returned d1 entries err →
      ∃ index,
        (artistsIndex (indexed one_folder) ≠ ∅
         ∧ index = artistsIndex (indexed one_folder)
         ∨ artistsIndex (indexed one_folder) = ∅
           ∧ indexChan (indexed one_folder) = Some index)
        ∧ entries
          = Some (dir_dirent "All"
                  :: (dir_dirent ∘ MusicFolder.Name <$> (map_to_list index).*1))
        ∧ err = None.
Proof.
  apply (root_lists_all_and_folders
           (indexed one_folder) (NewSubDir (-1) true false)).
  reflexivity.
Defined.

(** An instance. *)
Lemma unlisted_records_leave_no_trace_witness :
  ReadDir (serving track_title_suffix
             (only_listed track_title_suffix
                (album [song 7 "Song" "" ""; song 8 "Song" "mp3" ""])))
          album_node
  = ReadDir (serving track_title_suffix
               (album [song 7 "Song" "" ""; song 8 "Song" "mp3" ""]))
            album_node.
Proof.
  apply (unlisted_records_leave_no_trace
           (serving track_title_suffix
              (album [song 7 "Song" "" ""; song 8 "Song" "mp3" ""]))
           (serving track_title_suffix
              (only_listed track_title_suffix
                 (album [song 7 "Song" "" ""; song 8 "Song" "mp3" ""])))
           album_node
           (album [song 7 "Song" "" ""; song 8 "Song" "mp3" ""])).
  - reflexivity.
  - reflexivity.
  - reflexivity.
  - reflexivity.
  - reflexivity.
Defined.

(** An instance. *)
Lemma unknown_size_is_estimated_witness :
  SubFile.Size (audio_file (song 7 "Song" "flac" "mp3") ("mp3"%string, 0)
                           "3-Song.flac")
  = 40960 * Audio.DurationRaw (song 7 "Song" "flac" "mp3")
  ∧ SubFile.Lossless (audio_file (song 7 "Song" "flac" "mp3") ("mp3"%string, 0)
                                 "3-Song.flac")
    = false.
Proof.
  apply (unknown_size_is_estimated (song 7 "Song" "flac" "mp3") "mp3"
                                     "3-Song.flac").
  vm_compute. split; discriminate.
Defined.

End TreeMore.

(** ** More on the index refresh loop *)

Module IndexMore.

Import IndexCache Samples.

Lemma append_artists folder artists
    (index : gmap MusicFolder.t (list IndexArtist.t)) base :
  index !! folder = Some base →
  fold_left (append_artist folder) artists index
  = <[folder := base ++ artists]> index.
Proof.
  revert index base. induction artists as [|a artists IH]; intros index base Hbase.
  - cbn. rewrite app_nil_r. by rewrite insert_id.
  - cbn [fold_left]. unfold append_artist at 2. rewrite Hbase. cbn [default].
    rewrite (IH _ (base ++ [a])) by apply lookup_insert_eq.
    rewrite insert_insert_eq. by rewrite <- app_assoc.
Qed.

Lemma append_indexes folder indexes
    (index : gmap MusicFolder.t (list IndexArtist.t)) base :
  index !! folder = Some base →
  fold_left (λ index i, fold_left (append_artist folder) (Index.Artist i) index)
            indexes index
  = <[folder := base ++ flat_map Index.Artist indexes]> index.
Proof.
  revert index base. induction indexes as [|i indexes IH]; intros index base Hbase.
  - cbn. rewrite app_nil_r. by rewrite insert_id.
  - cbn [fold_left flat_map].
    rewrite (append_artists _ _ _ base Hbase).
    rewrite (IH _ (base ++ Index.Artist i)) by apply lookup_insert_eq.
    rewrite insert_insert_eq. by rewrite <- app_assoc.
Qed.

(** One folder of a cycle: its artists replaced on success, the index left
    alone on failure. *)
Lemma refresh_folder_index c index eff folder :
  (refresh_folder c (index, eff) folder).1
  = match GetIndexes c (MusicFolder.ID folder) with
    | Some indexes => <[folder := flat_map Index.Artist indexes]> index
    | None => index
    end.
Proof.
  unfold refresh_folder.
  destruct (GetIndexes c (MusicFolder.ID folder)) as [indexes|]; [|done].
  cbn [fst]. rewrite (append_indexes _ _ _ []) by apply lookup_insert_eq.
  by rewrite insert_insert_eq.
Qed.

Lemma refresh_folders_lookup c folders index eff f :
  (fold_left (refresh_folder c) folders (index, eff)).1 !! f
  = match GetIndexes c (MusicFolder.ID f) with
    | Some indexes =>
        if bool_decide (f ∈ folders)
        then Some (flat_map Index.Artist indexes)
        else index !! f
    | None => index !! f
    end.
Proof.
  revert index eff. induction folders as [|folder folders IH]; intros index eff.
  - cbn. by destruct (GetIndexes c (MusicFolder.ID f)).
  - cbn [fold_left].
    destruct (refresh_folder c (index, eff) folder) as [index' eff'] eqn:Hstep.
    rewrite IH.
    assert (index' = (refresh_folder c (index, eff) folder).1) as ->
      by by rewrite Hstep.
    rewrite refresh_folder_index.
    destruct (GetIndexes c (MusicFolder.ID f)) as [indexes|] eqn:Hf.
    + destruct (decide (f ∈ folders)) as [Hin|Hout].
      * rewrite !bool_decide_eq_true_2; [done|by right|done].
      * rewrite (bool_decide_eq_false_2 (f ∈ folders)) by done.
        destruct (decide (f = folder)) as [->|Hne].
        -- rewrite Hf, lookup_insert_eq.
           by rewrite bool_decide_eq_true_2 by by left.
        -- rewrite bool_decide_eq_false_2.
           2:{ intros Hin. apply elem_of_cons in Hin as [?|?]; done. }
           destruct (GetIndexes c (MusicFolder.ID folder)); [|done].
           by rewrite lookup_insert_ne.
    + destruct (decide (f = folder)) as [->|Hne].
      * by rewrite Hf.
      * destruct (GetIndexes c (MusicFolder.ID folder)); [|done].
        by rewrite lookup_insert_ne.
Qed.

(** After one cycle that got the folder list, a folder of the list whose
    index was fetched holds exactly the artists fetched, in order; every other
    folder holds what it held. *)
Theorem cycle_replaces_fetched_folders c folders index index' status eff f :
  GetMusicFolders c = Some folders →
  cacheIndexes [c] index = (index', status, eff) →
  index' !! f
  = match GetIndexes c (MusicFolder.ID f) with
    | Some indexes =>
        if bool_decide (f ∈ folders)
        then Some (flat_map Index.Artist indexes)
        else index !! f
    | None => index !! f
    end.
Proof.
  intros Hfolders. cbn [cacheIndexes]. rewrite Hfolders.
  pose proof (refresh_folders_lookup c folders index [EGetMusicFolders] f) as Hl.
  destruct (fold_left (refresh_folder c) folders (index, [EGetMusicFolders]))
    as [index1 eff1].
  cbn [fst] in Hl.
  destruct (received c); intros H; inversion H; subst; done.
Qed.

(** No cycle removes a folder from the index. *)
Theorem index_never_loses_a_folder cycles index f :
  is_Some (index !! f) →
  is_Some ((cacheIndexes cycles index).1.1 !! f).
Proof.
  revert index. induction cycles as [|c cycles IH]; intros index Hf; [done|].
  cbn [cacheIndexes].
  destruct (GetMusicFolders c) as [folders|]; [|done].
  pose proof (refresh_folders_lookup c folders index [EGetMusicFolders] f) as Hl.
  destruct (fold_left (refresh_folder c) folders (index, [EGetMusicFolders]))
    as [index1 eff1].
  cbn [fst] in Hl.
  assert (is_Some (index1 !! f)) as H1.
  { rewrite Hl. destruct (GetIndexes c (MusicFolder.ID f)); [|done].
    by destruct (bool_decide (f ∈ folders)). }
  destruct (received c); [|done].
  specialize (IH index1 H1).
  by destruct (cacheIndexes cycles index1) as [[index2 status] eff2].
Qed.

(** The loop is still running after the given cycles exactly when each of
    them got the folder list and had its send on [indexChan] received. *)
Theorem loop_runs_on_iff_every_cycle_is_received cycles index :
  (cacheIndexes cycles index).1.2 = Running
  ↔ Forall (λ c, is_Some (GetMusicFolders c) ∧ received c = true) cycles.
Proof.
  revert index. induction cycles as [|c cycles IH]; intros index.
  - split; [by constructor|done].
  - cbn [cacheIndexes].
    destruct (GetMusicFolders c) as [folders|] eqn:Hfolders.
    + destruct (fold_left (refresh_folder c) folders (index, [EGetMusicFolders]))
        as [index1 eff1].
      destruct (received c) eqn:Hreceived.
      * specialize (IH index1).
        destruct (cacheIndexes cycles index1) as [[index2 status] eff2].
        cbn [fst snd] in *. rewrite IH. split.
        -- intros H. constructor; [|done]. by rewrite Hfolders.
        -- intros H. by inversion H.
      * cbn. split; [done|]. intros H. inversion H as [|?? [_ ?]]. congruence.
    + cbn. split; [done|]. intros H. inversion H as [|?? [[? ?] _]]. congruence.
Qed.


(** An instance. *)
Lemma cycle_replaces_fetched_folders_witness :
  ({[ music := [abba; beck] ]} : gmap MusicFolder.t (list IndexArtist.t)) !! music
  = match GetIndexes (healthy [abba; beck]) (MusicFolder.ID music) with
    | Some indexes =>
        if bool_decide (music ∈ [music])
        then Some (flat_map Index.Artist indexes)
        else ({[ music := [abba] ]} : gmap MusicFolder.t (list IndexArtist.t))
               !! music
    | None => ({[ music := [abba] ]} : gmap MusicFolder.t (list IndexArtist.t))
                !! music
    end.
Proof.
  apply (cycle_replaces_fetched_folders (healthy [abba; beck]) [music]
           {[ music := [abba] ]} {[ music := [abba; beck] ]} Running
           [EGetMusicFolders; EGetIndexes 1; ESend; ESleep] music).
  - reflexivity.
  - vm_compute. reflexivity.
Defined.

(** An instance. *)
Lemma index_never_loses_a_folder_witness :
  is_Some ((cacheIndexes [folders_down; healthy [beck]]
                         ({[ music := [abba] ]}
                          : gmap MusicFolder.t (list IndexArtist.t))).1.1
           !! music).
Proof.
  apply (index_never_loses_a_folder [folders_down; healthy [beck]]
           {[ music := [abba] ]} music).
  by eexists.
Defined.

End IndexMore.

(** ** [stripExtension] and the unmount attempts *)

Module MiscMore.

Import GoStrings StringTerms.

Lemma append_assoc (a b c : string) : (a +:+ b) +:+ c = a +:+ (b +:+ c).
Proof.
  induction a as [|x a IH]; [done|].
  change (String x ((a +:+ b) +:+ c) = String x (a +:+ b +:+ c)).
  by rewrite IH.
Qed.

Lemma append_empty_r (a : string) : a +:+ EmptyString = a.
Proof.
  induction a as [|x a IH]; [done|].
  change (String x (a +:+ EmptyString) = String x a). by rewrite IH.
Qed.

Lemma split_dot_nonempty cur s : split_dot cur s ≠ [].
Proof.
  revert cur. induction s as [|c s IH]; intros cur; cbn; [done|].
  destruct (Ascii.eqb c "."); [done|apply IH].
Qed.

Lemma join_dot_cons p rest :
  rest ≠ [] → join_dot (p :: rest) = p +:+ "." +:+ join_dot rest.
Proof. by destruct rest. Qed.

(** Joining the pieces gives the string back. *)
Lemma join_split_dot cur s : join_dot (split_dot cur s) = cur +:+ s.
Proof.
  revert cur. induction s as [|c s IH]; intros cur; cbn [split_dot].
  - cbn. by rewrite append_empty_r.
  - destruct (Ascii.eqb_spec c ".") as [->|Hc].
    + rewrite join_dot_cons by apply split_dot_nonempty.
      rewrite IH. done.
    + rewrite IH, append_assoc. done.
Qed.

Lemma split_dot_dotless cur s :
  dotless s = true → split_dot cur s = [cur +:+ s].
Proof.
  revert cur. induction s as [|c s IH]; intros cur; cbn.
  - by rewrite append_empty_r.
  - intros H. apply andb_true_iff in H as [Hc Hs].
    apply negb_true_iff in Hc. rewrite Hc, IH by done.
    by rewrite append_assoc.
Qed.

Lemma split_dot_last cur s ext :
  dotless ext = true →
  split_dot cur (s +:+ "." +:+ ext) = split_dot cur s ++ [ext].
Proof.
  intros Hext. revert cur. induction s as [|c s IH]; intros cur.
  - change (split_dot cur (String "." ext) = [cur] ++ [ext]).
    cbn [split_dot]. rewrite Ascii.eqb_refl.
    by rewrite (split_dot_dotless "" ext).
  - change (split_dot cur (String c (s +:+ "." +:+ ext))
            = split_dot cur (String c s) ++ [ext]).
    cbn [split_dot]. destruct (Ascii.eqb c "."); [|apply IH].
    by rewrite IH.
Qed.

(** [stripExtension] gives back what stands before the last dot, and the
    empty string for a name without a dot. *)
Theorem stripExtension_drops_the_last_piece base ext :
  dotless ext = true →
  stripExtension (base +:+ "." +:+ ext) = base
  ∧ stripExtension ext = EmptyString.
Proof.
  intros Hext. unfold stripExtension. split.
  - rewrite split_dot_last by done. rewrite removelast_last.
    apply (join_split_dot "" base).
  - by rewrite split_dot_dotless.
Qed.

Import Shutdown.

(** The two directions of "status 1 exactly when", once the attempts are
    known. *)
Ltac status_iff close :=
  destruct close; cbn;
  (split;
   [ first [ done | intros _; by right
           | intros _; left; by repeat split ]
   | first [ done | intros [(? & ? & ? & ?)|?]; congruence ] ]).

(** The end of [main].  There is a number [k] of failed unmount attempts,
    at most four, made one after the other; each attempt but the first comes
    right after a wait.  When [k] is below four, attempt [k] succeeds, no
    further attempt is made, [Close] is called, and [main] returns when it
    succeeds and exits with status 1 when it fails.  When the four attempts
    fail, [main] exits with status 1 without calling [Close].  So the status
    is 1 exactly when the four attempts fail or [Close] fails. *)
Theorem shutdown_retries_unmount_then_closes unmount close :
  (∃ k, (k ≤ 4)%nat
        ∧ (∀ i, (i < k)%nat → unmount i = false)
        ∧ ((k < 4)%nat → unmount k = true)
        ∧ shutdown unmount close
          = if (k <? 4)%nat
            then (if close then Returns else Exits 1,
                  attempts (S k) ++ [EClose])
            else (Exits 1, attempts 4))
  ∧ ((shutdown unmount close).1 = Exits 1
     ↔ (unmount 0%nat = false ∧ unmount 1%nat = false
        ∧ unmount 2%nat = false ∧ unmount 3%nat = false)
       ∨ close = false).
Proof.
  unfold shutdown, unmount_loop.
  cbn [unmount_from retry Nat.add Nat.ltb Nat.leb Nat.eqb].
  destruct (unmount 0%nat) eqn:H0;
    [|destruct (unmount 1%nat) eqn:H1;
      [|destruct (unmount 2%nat) eqn:H2;
        [|destruct (unmount 3%nat) eqn:H3]]].
  - split.
    + exists 0%nat. split; [lia|]. split; [intros i Hi; lia|].
      split; [done|]. by destruct close.
    + by status_iff close.
  - split.
    + exists 1%nat. split; [lia|]. split.
      { intros i Hi. by replace i with 0%nat by lia. }
      split; [done|]. by destruct close.
    + by status_iff close.
  - split.
    + exists 2%nat. split; [lia|]. split.
      { intros i Hi. assert (i = 0 ∨ i = 1)%nat as [->| ->] by lia; done. }
      split; [done|]. by destruct close.
    + by status_iff close.
  - split.
    + exists 3%nat. split; [lia|]. split.
      { intros i Hi.
        assert (i = 0 ∨ i = 1 ∨ i = 2)%nat as [->|[->| ->]] by lia; done. }
      split; [done|]. by destruct close.
    + by status_iff close.
  - split.
    + exists 4%nat. split; [lia|]. split.
      { intros i Hi.
        assert (i = 0 ∨ i = 1 ∨ i = 2 ∨ i = 3)%nat as [->|[->|[->| ->]]] by lia;
          done. }
      split; [lia|]. done.
    + by status_iff close.
Qed.


(** An instance. *)
Lemma stripExtension_witness :
  stripExtension ("Artist/Album/song.tar" +:+ "." +:+ "flac")
  = "Artist/Album/song.tar"%string
  ∧ stripExtension "flac" = EmptyString.
Proof.
  apply (stripExtension_drops_the_last_piece "Artist/Album/song.tar" "flac").
  reflexivity.
Defined.

End MiscMore.

(** ** The first tree *)

Module FlatMore.

Import Flat MoreSamples TreeProps.

Lemma flat_resolvable_add_dir name node l :
  resolvable l → resolvable (add_dir name node l).
Proof.
  intros H e. cbn [add_dir fst snd nameToDir nameToFile]. intros He.
  apply elem_of_app in He as [He|He].
  - destruct (H e He) as [Hdir Hany]. split.
    + intros Ht. apply lookup_insert_is_Some'. right. by apply Hdir.
    + destruct Hany as [Hd|Hf]; [left|by right].
      apply lookup_insert_is_Some'. by right.
  - apply list_elem_of_singleton in He as ->. cbn.
    assert (is_Some (<[name:=node]> (nameToDir l.1) !! name)).
    { apply lookup_insert_is_Some'. by left. }
    split; [done|by left].
Qed.

Lemma flat_resolvable_add_file name f l :
  resolvable l → resolvable (add_file name f l).
Proof.
  intros H e. cbn [add_file fst snd nameToDir nameToFile]. intros He.
  apply elem_of_app in He as [He|He].
  - destruct (H e He) as [Hdir Hany]. split; [done|].
    destruct Hany as [Hd|Hf]; [by left|right].
    apply lookup_insert_is_Some'. by right.
  - apply list_elem_of_singleton in He as ->. cbn. split; [done|].
    right. apply lookup_insert_is_Some'. by left.
Qed.

Lemma ReadDir_resolvable env st d st' entries err :
  ReadDir env st d = (st', Some entries, err) →
  resolvable (st', entries).
Proof.
  assert (resolvable (st, [])) as Hstart.
  { intros e He. by apply elem_of_nil in He. }
  unfold ReadDir. destruct (String.eqb (RelPath d) "").
  - destruct (GetIndexes env) as [index|]; [|done].
    intros H. inversion H; subst. rewrite <- surjective_pairing.
    apply fold_left_inv; [|done].
    intros l i _ Hl. unfold add_index. apply fold_left_inv; [|done].
    intros. by apply flat_resolvable_add_dir.
  - destruct (GetMusicDirectory env (ID d)) as [content|]; [|done].
    intros H. inversion H; subst. rewrite <- surjective_pairing.
    apply fold_left_inv. { intros. by apply flat_resolvable_add_file. }
    apply fold_left_inv. { intros. by apply flat_resolvable_add_file. }
    apply fold_left_inv; [|done]. intros. by apply flat_resolvable_add_dir.
Qed.

(** In the first tree every entry a listing returns can be looked up from
    any directory; a directory entry gives a directory whose path is its name
    followed by [/]. *)
Theorem flat_listing_resolves_from_any_directory
    env st d st' entries err e d' :
  ReadDir env st d = (st', Some entries, err) →
  e ∈ entries →
  ∃ node, Lookup st' d' (Fuse.Name e) = (Some node, None)
          ∧ (Fuse.Type_ e = Fuse.DT_Dir →
             ∃ id, node = DirNode {| ID := id;
                                     RelPath := Fuse.Name e +:+ "/" |}).
Proof.
  intros Hread He.
  destruct (ReadDir_resolvable _ _ _ _ _ _ Hread e He) as [Hdir Hany].
  cbn [fst snd] in *. unfold Lookup.
  destruct (nameToDir st' !! Fuse.Name e) as [dir|] eqn:Hd.
  - eexists. split; [done|]. intros _. by eexists.
  - destruct Hany as [[? ?]|[f Hf]]; [done|]. rewrite Hf.
    eexists. split; [done|]. intros Ht. destruct (Hdir Ht) as [? ?]. done.
Qed.

(** In the first tree a directory handed out by [Lookup] never lists the
    index: its listing is that of the remote directory of its identifier, and
    fails when that cannot be fetched. *)
Theorem flat_only_the_root_lists_the_index env st st' d name dir :
  Lookup st d name = (Some (DirNode dir), None) →
  ReadDir env st' dir
  = match GetMusicDirectory env (ID dir) with
    | None => (st', None, Some Fuse.ENOENT)
    | Some content =>
        let l := fold_left add_video (Content.Video content)
                   (fold_left add_audio (Content.Audio content)
                      (fold_left (add_directory dir)
                         (Content.Directories content) (st', []))) in
        (l.1, Some l.2, None)
    end.
Proof.
  unfold Lookup. intros H.
  assert (RelPath dir = name +:+ "/") as Hpath.
  { destruct (nameToDir st !! name); [by inversion H|].
    by destruct (nameToFile st !! name). }
  unfold ReadDir. rewrite Hpath.
  assert (String.eqb (name +:+ "/") "" = false) as ->; [|done].
  apply String.eqb_neq. by destruct name.
Qed.


(** An instance. *)
Lemma flat_listing_witness :
  ∃ node,
    Lookup {| nameToDir := ∅;
              nameToFile :=
                {[ "03 - Artist - Song.mp3"%string :=
                     file 8 0 "03 - Artist - Song.mp3" 1000 ]} |}
           Root (Fuse.Name (Samples.file_dirent "03 - Artist - Song.mp3"))
    = (Some node, None)
    ∧ (Fuse.Type_ (Samples.file_dirent "03 - Artist - Song.mp3") = Fuse.DT_Dir →
       ∃ id, node
             = DirNode {| ID := id;
                          RelPath :=
                            Fuse.Name (Samples.file_dirent "03 - Artist - Song.mp3")
                            +:+ "/" |}).
Proof.
  apply (flat_listing_resolves_from_any_directory
           flat_album init {| ID := 42; RelPath := "Artist/" |}
           {| nameToDir := ∅;
              nameToFile :=
                {[ "03 - Artist - Song.mp3"%string :=
                     file 8 0 "03 - Artist - Song.mp3" 1000 ]} |}
           [Samples.file_dirent "03 - Artist - Song.mp3";
            Samples.file_dirent "03 - Artist - Song.mp3"] None).
  - vm_compute. reflexivity.
  - by left.
Defined.

(** An instance. *)
Lemma flat_only_the_root_witness :
  ReadDir flat_album init {| ID := 10; RelPath := "ABBA/" |}
  = match GetMusicDirectory flat_album (ID {| ID := 10; RelPath := "ABBA/" |}) with
    | None => (init, None, Some Fuse.ENOENT)
    | Some content =>
        let l := fold_left add_video (Content.Video content)
                   (fold_left add_audio (Content.Audio content)
                      (fold_left (add_directory {| ID := 10; RelPath := "ABBA/" |})
                         (Content.Directories content) (init, []))) in
        (l.1, Some l.2, None)
    end.
Proof.
  apply (flat_only_the_root_lists_the_index flat_album
           {| nameToDir := {[ "ABBA"%string := {| ID := 10; RelPath := "" |} ]};
              nameToFile := ∅ |}
           init Root "ABBA" {| ID := 10; RelPath := "ABBA/" |}).
  reflexivity.
Defined.

End FlatMore.
